(** * DiscordPerms: the permission editor, the batch writes and the rollback log

    A shallow embedding of [PermissionManager] (src/permission_bot.py) and the
    properties of its permission merge, its batch operations, its one-slot
    rollback log and its configuration export and import. *)

From Stdlib Require Import ZArith Ascii String DecimalString DecimalZ.
From stdpp Require Import gmap strings list fin_maps.

Local Open Scope string_scope.
Local Open Scope Z_scope.

(** ** Data model *)

(** [self.permissions]: the catalog of flag names held by the manager. *)
Definition permissions : list string :=
  [ "create_instant_invite"; "kick_members"; "ban_members"; "administrator";
    "manage_channels"; "manage_guild"; "add_reactions"; "view_audit_log";
    "priority_speaker"; "stream"; "view_channel"; "send_messages";
    "send_tts_messages"; "manage_messages"; "embed_links"; "attach_files";
    "read_message_history"; "mention_everyone"; "use_external_emojis";
    "view_guild_insights"; "connect"; "speak"; "mute_members";
    "deafen_members"; "move_members"; "use_vad"; "change_nickname";
    "manage_nicknames"; "manage_roles"; "manage_webhooks";
    "manage_emojis_and_stickers"; "use_application_commands";
    "request_to_speak"; "manage_events"; "manage_threads";
    "create_public_threads"; "create_private_threads";
    "use_external_stickers"; "send_messages_in_threads";
    "use_embedded_activities"; "moderate_members";
    "view_creator_monetization_analytics"; "use_soundboard";
    "send_voice_messages"; "set_voice_channel_status"; "use_external_sounds";
    "bypass_slowmode" ].

(** A [discord.PermissionOverwrite] holds the flags that are explicitly set:
    [true] allows, [false] denies, and a name without an entry reads [None],
    which is the inherited state.  [PermissionOverwrite()] is the empty map. *)
Abbreviation PermissionOverwrite := (gmap string bool) (only parsing).

(** [channel.overwrites]: a dictionary from role to its record.  Roles hash and
    compare by their id, which is the key used here. *)
Abbreviation Overwrites := (gmap Z (gmap string bool)) (only parsing).



Record Role := { role_id : Z; role_name : string }.

(** The attributes of a channel object that the manager reads and never
    changes.  Its [overwrites] are mutable and live in the platform's store. *)
Record Channel := {
  channel_id : Z;
  channel_name : string;
  channel_type : string;
  channel_category_id : option Z }.

Record Guild := {
  guild_id : Z;
  guild_name : string;
  guild_roles : list Role;
  guild_channels : list Channel }.

(** The value stored per channel id by the two merging flows:
    [{'overwrites': channel.overwrites.copy()}]. *)
Record OriginalData := { overwrites : Overwrites }.

(** The dictionary kept in [self.last_operation], by its ['type']. *)
Inductive Operation :=
| bulk_role_to_channel (role : Role) (channels : list Channel)
    (original_overwrites : gmap Z OriginalData) (new_permissions : gmap string bool)
| pattern_match (role_pattern channel_pattern : string)
    (matching_roles : list Role) (matching_channels : list Channel)
    (original_overwrites : gmap Z OriginalData) (new_permissions : gmap string bool)
| copy_permissions_op (source target : Channel) (original_overwrites : Overwrites)
| import_config_op (original_overwrites : gmap Z (gmap Z (gmap string bool)))
    (imported_from : string).

(** One entry of ['channels'] in a configuration file.  A flag value is a JSON
    [true] or [false] ([Some b]) or [null] ([None]). *)
Record ChannelData := {
  cd_id : Z;
  cd_name : string;
  cd_type : string;
  cd_category_id : option Z;
  cd_overwrites : gmap string (gmap string (option bool)) }.

Record Config := {
  cfg_guild_id : Z;
  cfg_guild_name : string;
  cfg_exported_at : string;
  cfg_channels : list ChannelData }.

(** The manager together with what it acts on.
    - [store]: the platform's overwrite dictionary per channel id; a channel
      without an entry has no overwrites.
    - [remote] and [requests]: the platform answers the n-th write request with
      [None] (accepted) or [Some msg] (a [discord.DiscordException] carrying
      [msg]); [requests] counts the requests made so far.
    - [tasks]: writes handed to [asyncio.create_task] that have not run yet.
    - [files]: the JSON documents on disk, by file name.
    - [clock]: what [datetime.now().isoformat()] returns. *)
Record World := {
  guild : option Guild;
  last_operation : option Operation;
  store : gmap Z (gmap Z (gmap string bool));
  remote : nat -> option string;
  requests : nat;
  tasks : list (Channel * gmap Z (gmap string bool));
  console : list string;
  files : gmap string Config;
  clock : string }.

Definition set_last_operation (op : option Operation) (w : World) : World :=
  {| guild := guild w; last_operation := op; store := store w;
     remote := remote w; requests := requests w; tasks := tasks w;
     console := console w; files := files w; clock := clock w |}.

Definition set_tasks (ts : list (Channel * gmap Z (gmap string bool))) (w : World) : World :=
  {| guild := guild w; last_operation := last_operation w; store := store w;
     remote := remote w; requests := requests w; tasks := ts;
     console := console w; files := files w; clock := clock w |}.

Definition set_files (fs : gmap string Config) (w : World) : World :=
  {| guild := guild w; last_operation := last_operation w; store := store w;
     remote := remote w; requests := requests w; tasks := tasks w;
     console := console w; files := fs; clock := clock w |}.

(** [console.print(line)]. *)
Definition console_print (line : string) (w : World) : World :=
  {| guild := guild w; last_operation := last_operation w; store := store w;
     remote := remote w; requests := requests w; tasks := tasks w;
     console := console w ++ [line]; files := files w; clock := clock w |}.

(** [channel.overwrites]: read from the platform's store.  The client builds a
    new dictionary of new records at every access, so a read is a value. *)
Definition channel_overwrites (w : World) (channel : Channel) : Overwrites :=
  default ∅ (store w !! channel_id channel).

(** [await channel.edit(overwrites=new_overwrites)]: one write request.  When
    the platform accepts it the channel's dictionary is replaced as a whole;
    when it raises nothing is changed.  The result is the exception message. *)
Definition channel_edit (channel : Channel) (new_overwrites : Overwrites) (w : World)
  : option string * World :=
  match remote w (requests w) with
  | None =>
      (None,
       {| guild := guild w; last_operation := last_operation w;
          store := <[channel_id channel := new_overwrites]> (store w);
          remote := remote w; requests := S (requests w); tasks := tasks w;
          console := console w; files := files w; clock := clock w |})
  | Some msg =>
      (Some msg,
       {| guild := guild w; last_operation := last_operation w;
          store := store w;
          remote := remote w; requests := S (requests w); tasks := tasks w;
          console := console w; files := files w; clock := clock w |})
  end.

(** ** Strings *)

(** [str.lower()] on ASCII letters. *)
Definition lower_ascii (c : ascii) : ascii :=
  let n := nat_of_ascii c in
  if (Nat.leb 65 n && Nat.leb n 90)%bool then ascii_of_nat (n + 32) else c.

Fixpoint lower (s : string) : string :=
  match s with
  | EmptyString => EmptyString
  | String c s' => String (lower_ascii c) (lower s')
  end.


(** [needle in hay] on strings: [needle] occurs as a contiguous part. *)
Fixpoint contains (needle hay : string) : bool :=
  String.prefix needle hay ||
  match hay with
  | EmptyString => false
  | String _ hay' => contains needle hay'
  end.

(** [str(n)] and [int(s)] on decimal numerals.  Python's [int] also reads a
    numeral with blanks around it, a plus sign or underscores; [str] never
    writes one, and such a key counts as not numeric here. *)
Definition str (n : Z) : string := NilZero.string_of_int (Z.to_int n).

Definition int (s : string) : option Z := Z.of_int <$> NilZero.int_of_string s.

(** ** Sample data used by the examples at the end *)

Definition sample_role : Role := {| role_id := 555; role_name := "Moderators" |}.

Definition general : Channel :=
  {| channel_id := 1; channel_name := "general"; channel_type := "text";
     channel_category_id := None |}.

Definition staff : Channel :=
  {| channel_id := 2; channel_name := "staff-room"; channel_type := "text";
     channel_category_id := Some 10 |}.

(** A second channel called "general", in another category. *)
Definition general_archive : Channel :=
  {| channel_id := 3; channel_name := "general"; channel_type := "text";
     channel_category_id := Some 11 |}.

Definition sample_guild : Guild :=
  {| guild_id := 123456789; guild_name := "Test Server";
     guild_roles := [sample_role];
     guild_channels := [general; staff] |}.

(** A platform that accepts every write request. *)
Definition accepts_all : nat -> option string := fun _ => None.

(** A platform that rejects exactly the n-th write request. *)
Definition rejects_nth (n : nat) : nat -> option string :=
  fun k => if Nat.eqb k n then Some "403 Forbidden" else None.

Definition sample_world (platform : nat -> option string)
    (st : gmap Z (gmap Z (gmap string bool))) : World :=
  {| guild := Some sample_guild; last_operation := None; store := st;
     remote := platform; requests := 0%nat; tasks := []; console := [];
     files := ∅; clock := "2025-01-01T00:00:00" |}.

(** The store in which "general" denies [send_messages] to the sample role and
    "staff-room" has no overwrites. *)
Definition sample_store : gmap Z (gmap Z (gmap string bool)) :=
  {[ 1 := {[ 555 := {[ "send_messages" := false ]} ]} ]}.

(** An attribute table after the client library's: of the catalog names it
    lacks [use_vad] (the library calls that flag [use_voice_activation]), and
    it has [send_polls], which the catalog does not list. *)
Definition discord_attrs (perm_name : string) : bool :=
  (bool_decide (perm_name ∈ permissions) && negb (String.eqb perm_name "use_vad"))
  || String.eqb perm_name "send_polls".

Definition announcements : Channel :=
  {| channel_id := 4; channel_name := "announcements"; channel_type := "text";
     channel_category_id := None |}.

(** A platform that rejects the write requests with the given numbers. *)
Definition rejects_at (numbers : list nat) : nat -> option string :=
  fun k => if bool_decide (k ∈ numbers) then Some "403 Forbidden" else None.

(** A configuration file that gives the sample role [view_channel] in
    "general" and has an entry for a channel that the guild does not have. *)
Definition sample_config : Config :=
  {| cfg_guild_id := 123456789; cfg_guild_name := "Test Server";
     cfg_exported_at := "2023-01-01T00:00:00";
     cfg_channels :=
       [ {| cd_id := 1; cd_name := "general"; cd_type := "text";
            cd_category_id := None;
            cd_overwrites := {[ "555" := {[ "view_channel" := Some true ]} ]} |};
         {| cd_id := 987654321; cd_name := "test-channel"; cd_type := "text";
            cd_category_id := Some 111111111;
            cd_overwrites := {[ "555" := {[ "send_messages" := Some true ]} ]} |} ] |}.

(** A configuration file whose entry for "general" has a role key that is not
    a number. *)
Definition broken_config : Config :=
  {| cfg_guild_id := 123456789; cfg_guild_name := "Test Server";
     cfg_exported_at := "2023-01-01T00:00:00";
     cfg_channels :=
       [ {| cd_id := 1; cd_name := "general"; cd_type := "text";
            cd_category_id := None;
            cd_overwrites := {[ "everyone" := {[ "view_channel" := Some true ]} ]} |} ] |}.

(** The sample world with the two files on disk. *)
Definition sample_world_with_files (platform : nat -> option string) : World :=
  {| guild := Some sample_guild; last_operation := None; store := sample_store;
     remote := platform; requests := 0%nat; tasks := []; console := [];
     files := {[ "config.json" := sample_config; "broken.json" := broken_config ]};
     clock := "2025-01-01T00:00:00" |}.

(** ** The manager *)

Section Manager.

(** [hasattr(overwrite, perm_name)]: which names the client library's
    overwrite type has as a flag attribute.  The type comes from the library,
    so the table is a parameter of the development.  Two names are two flags:
    a record is read and written under the name that is used. *)
Variable hasattr : string -> bool.

(** [setattr(overwrite, perm_name, value)] for a flag name: [True] and [False]
    store the flag, [None] removes it.  This is the library's behaviour for a
    flag known under one name, as the catalog names that the type has are; the
    library raises for an attribute that is not a flag, and treats two alias
    names as one flag. *)
Definition setattr (overwrite : PermissionOverwrite) (perm_name : string)
    (value : option bool) : PermissionOverwrite :=
  match value with
  | Some b => <[perm_name := b]> overwrite
  | None => delete perm_name overwrite
  end.

(** The body of the loop over [permissions_dict.items()]. *)
Definition set_permission (perm_name : string) (value : bool)
    (overwrite : PermissionOverwrite) : PermissionOverwrite :=
  if hasattr perm_name then setattr overwrite perm_name (Some value) else overwrite.

(** [for perm_name, value in permissions_dict.items(): ...].  The fold visits
    the items in the order of the map, the dictionary in the order of
    insertion; [set_permissions_items_eq] below shows that the order does not
    change the result. *)
Definition set_permissions (permissions_dict : gmap string bool)
    (overwrite : PermissionOverwrite) : PermissionOverwrite :=
  map_fold set_permission overwrite permissions_dict.

(** The same loop over the items in the order in which a dictionary yields
    them. *)
Definition set_permissions_items (items : list (string * bool))
    (overwrite : PermissionOverwrite) : PermissionOverwrite :=
  foldl (fun ow item => set_permission item.1 item.2 ow) overwrite items.

(** The merge of both batch flows: take the role's record when the channel has
    one, a new empty record otherwise, and set the requested flags on it. *)
Definition compute_new_overwrite (current : option (gmap string bool))
    (requested : gmap string bool) : PermissionOverwrite :=
  set_permissions requested (default ∅ current).

(** [new_overwrites[role] = overwrite] on the copy of the channel's
    dictionary, after the merge. *)
Definition merge_role (role : Role) (permissions_dict : gmap string bool)
    (new_overwrites : Overwrites) : Overwrites :=
  <[role_id role :=
      compute_new_overwrite (new_overwrites !! role_id role) permissions_dict]>
    new_overwrites.

Definition write_status (answer : option string) : string :=
  match answer with
  | None => "Success"
  | Some e => "Failed: " ++ e
  end.

(** [original_overwrites[channel.id] = {'overwrites': channel.overwrites.copy()}]
    for every channel, before any write. *)
Definition capture_originals (w : World) (channels : list Channel)
  : gmap Z OriginalData :=
  foldl (fun acc channel =>
           <[channel_id channel := {| overwrites := channel_overwrites w channel |}]> acc)
        ∅ channels.

(** The loop over the channels for one role: merge, write, record the status
    under [key channel].  A rejected write is caught and the loop goes on. *)
Fixpoint apply_to_channels (role : Role) (permissions_dict : gmap string bool)
    (key : Channel -> string) (channels : list Channel)
    (results : gmap string string) (w : World) : gmap string string * World :=
  match channels with
  | [] => (results, w)
  | channel :: rest =>
      let new_overwrites :=
        merge_role role permissions_dict (channel_overwrites w channel) in
      let '(answer, w') := channel_edit channel new_overwrites w in
      apply_to_channels role permissions_dict key rest
        (<[key channel := write_status answer]> results) w'
  end.

Definition bulk_role_to_channel_permissions (role : Role) (channels : list Channel)
    (permissions_dict : gmap string bool) (w : World) : gmap string string * World :=
  let original_overwrites := capture_originals w channels in
  let '(results, w') :=
    apply_to_channels role permissions_dict channel_name channels ∅ w in
  (results,
   set_last_operation
     (Some (bulk_role_to_channel role channels original_overwrites permissions_dict)) w').

(** The two nested loops of the pattern flow. *)
Fixpoint apply_to_pairs (roles : list Role) (channels : list Channel)
    (permissions_dict : gmap string bool)
    (results : gmap string string) (w : World) : gmap string string * World :=
  match roles with
  | [] => (results, w)
  | role :: rest =>
      let '(results', w') :=
        apply_to_channels role permissions_dict
          (fun channel => role_name role ++ " -> " ++ channel_name channel)
          channels results w in
      apply_to_pairs rest channels permissions_dict results' w'
  end.

Definition matching_roles_of (g : Guild) (role_pattern : string) : list Role :=
  List.filter (fun r => contains (lower role_pattern) (lower (role_name r)))
    (guild_roles g).

Definition matching_channels_of (g : Guild) (channel_pattern : string) : list Channel :=
  List.filter (fun c => contains (lower channel_pattern) (lower (channel_name c)))
    (guild_channels g).

(** The result is [None] when no guild is selected: reading [self.guild.roles]
    then raises an [AttributeError] that nothing catches. *)
Definition pattern_match_permissions (role_pattern channel_pattern : string)
    (permissions_dict : gmap string bool) (w : World)
  : option (gmap string string * World) :=
  match guild w with
  | None => None
  | Some g =>
      let matching_roles := matching_roles_of g role_pattern in
      let matching_channels := matching_channels_of g channel_pattern in
      match matching_roles, matching_channels with
      | [], _ =>
          Some (∅, console_print
                     ("[yellow]No roles match pattern: " ++ role_pattern ++ "[/yellow]") w)
      | _, [] =>
          Some (∅, console_print
                     ("[yellow]No channels match pattern: " ++ channel_pattern ++ "[/yellow]") w)
      | _, _ =>
          let original_overwrites := capture_originals w matching_channels in
          let '(results, w') :=
            apply_to_pairs matching_roles matching_channels permissions_dict ∅ w in
          Some (results,
                set_last_operation
                  (Some (pattern_match role_pattern channel_pattern matching_roles
                           matching_channels original_overwrites permissions_dict)) w')
      end
  end.

Definition copy_permissions (source target : Channel) (w : World) : string * World :=
  let original_overwrites := channel_overwrites w target in
  match channel_edit target (channel_overwrites w source) w with
  | (None, w') =>
      ("Success",
       set_last_operation
         (Some (copy_permissions_op source target original_overwrites)) w')
  | (Some e, w') => ("Failed: " ++ e, w')
  end.

Definition audit_permissions (target : Channel) (w : World) : Overwrites :=
  channel_overwrites w target.

(** The restoring loop of a rollback.  The first rejected write leaves the
    loop with its exception. *)
Fixpoint restore_channels (channels : list Channel)
    (original_overwrites : gmap Z OriginalData) (w : World) : option string * World :=
  match channels with
  | [] => (None, w)
  | channel :: rest =>
      match original_overwrites !! channel_id channel with
      | Some original_data =>
          match channel_edit channel (overwrites original_data) w with
          | (None, w') => restore_channels rest original_overwrites w'
          | (Some e, w') => (Some e, w')
          end
      | None => restore_channels rest original_overwrites w
      end
  end.

(** The [try] block of a rollback, by the type of the recorded operation. *)
Definition restore_operation (operation : Operation) (w : World) : option string * World :=
  match operation with
  | bulk_role_to_channel _ channels original_overwrites _ =>
      restore_channels channels original_overwrites w
  | pattern_match _ _ _ matching_channels original_overwrites _ =>
      restore_channels matching_channels original_overwrites w
  | copy_permissions_op _ target original_overwrites =>
      channel_edit target original_overwrites w
  | import_config_op _ _ => (None, w)
  end.

Definition rollback_last_operation (w : World) : bool * World :=
  match last_operation w with
  | None => (false, console_print "[yellow]No operation to rollback![/yellow]" w)
  | Some operation =>
      match restore_operation operation w with
      | (None, w') =>
          (true,
           set_last_operation None
             (console_print "[green]Rollback successful![/green]" w'))
      | (Some e, w') =>
          (false, console_print ("[red]Rollback failed: " ++ e ++ "[/red]") w')
      end
  end.

(** The loop of [export_config] over the catalog for one record: a flag is
    written only when the record has the attribute and its value is not
    [None]. *)
Definition export_overwrite (overwrite : PermissionOverwrite)
  : gmap string (option bool) :=
  foldl (fun overwrite_data perm_name =>
           if hasattr perm_name then
             match overwrite !! perm_name with
             | Some value => <[perm_name := Some value]> overwrite_data
             | None => overwrite_data
             end
           else overwrite_data)
        ∅ permissions.

(** The body of the loop over [channel.overwrites.items()]: a record is added
    under [str(role.id)] only when some flag was written for it. *)
Definition export_role (role : Z) (overwrite : gmap string bool)
    (channel_overwrites_data : gmap string (gmap string (option bool)))
  : gmap string (gmap string (option bool)) :=
  let overwrite_data := export_overwrite overwrite in
  if decide (overwrite_data = ∅) then channel_overwrites_data
  else <[str role := overwrite_data]> channel_overwrites_data.

Definition export_overwrites (channel_overwrites : Overwrites)
  : gmap string (gmap string (option bool)) :=
  map_fold export_role ∅ channel_overwrites.

Definition export_channel (w : World) (channel : Channel) : ChannelData :=
  {| cd_id := channel_id channel;
     cd_name := channel_name channel;
     cd_type := channel_type channel;
     cd_category_id := channel_category_id channel;
     cd_overwrites := export_overwrites (channel_overwrites w channel) |}.

Definition export_config (filename : string) (w : World) : World :=
  match guild w with
  | None => console_print "[red]No guild selected![/red]" w
  | Some g =>
      let config :=
        {| cfg_guild_id := guild_id g;
           cfg_guild_name := guild_name g;
           cfg_exported_at := clock w;
           cfg_channels := export_channel w <$> guild_channels g |} in
      console_print ("[green]Configuration exported to " ++ filename ++ "[/green]")
        (set_files (<[filename := config]> (files w)) w)
  end.

(** [self.guild.get_channel(id)] and [self.guild.get_role(id)]. *)
Definition get_channel (g : Guild) (id : Z) : option Channel :=
  List.find (fun c => Z.eqb (channel_id c) id) (guild_channels g).

Definition get_role (g : Guild) (id : Z) : option Role :=
  List.find (fun r => Z.eqb (role_id r) id) (guild_roles g).

(** The record rebuilt from one [overwrite_data] of the file. *)
Definition import_overwrite (overwrite_data : gmap string (option bool))
  : PermissionOverwrite :=
  map_fold (fun perm_name value overwrite =>
              if hasattr perm_name then setattr overwrite perm_name value
              else overwrite)
           ∅ overwrite_data.

(** The body of the loop over [channel_data['overwrites'].items()].  [inl key]
    is the [ValueError] of [int(key)], which ends the import; a role id that
    the guild does not have is skipped. *)
Definition import_role (g : Guild) (role_id_str : string)
    (overwrite_data : gmap string (option bool))
    (acc : string + gmap Z (gmap string bool)) : string + gmap Z (gmap string bool) :=
  match acc with
  | inl bad => inl bad
  | inr new_overwrites =>
      match int role_id_str with
      | None => inl role_id_str
      | Some id =>
          match get_role g id with
          | None => inr new_overwrites
          | Some role =>
              inr (<[role_id role := import_overwrite overwrite_data]> new_overwrites)
          end
      end
  end.

(** The loop visits the keys in the order of the map.  The order matters only
    for a file in which two keys are numerals of the same role id, or more
    than one key is not a numeral (which of them the exception names). *)
Definition import_overwrites (g : Guild)
    (data : gmap string (gmap string (option bool)))
  : string + gmap Z (gmap string bool) :=
  map_fold (import_role g) (inr ∅) data.

(** The loop over [config['channels']]: a channel the guild does not have is
    skipped; for the others the write is handed to [asyncio.create_task] and
    not awaited.  The result is the message of the exception that ended the
    loop, if any. *)
Fixpoint import_channels (g : Guild) (channels_data : list ChannelData) (w : World)
  : option string * World :=
  match channels_data with
  | [] => (None, w)
  | channel_data :: rest =>
      match get_channel g (cd_id channel_data) with
      | None => import_channels g rest w
      | Some channel =>
          match import_overwrites g (cd_overwrites channel_data) with
          | inl bad =>
              (Some ("invalid literal for int() with base 10: '" ++ bad ++ "'"), w)
          | inr new_overwrites =>
              import_channels g rest
                (set_tasks (tasks w ++ [(channel, new_overwrites)]) w)
          end
      end
  end.

(** [original_overwrites[channel.id] = channel.overwrites.copy()] for every
    channel of the guild. *)
Definition capture_guild (w : World) (g : Guild) : gmap Z (gmap Z (gmap string bool)) :=
  foldl (fun acc channel => <[channel_id channel := channel_overwrites w channel]> acc)
        ∅ (guild_channels g).

(** The files of the model hold parsed documents, so of the three handlers
    the one for a missing file and the general one can be reached. *)
Definition import_config (filename : string) (w : World) : World :=
  match guild w with
  | None => console_print "[red]No guild selected![/red]" w
  | Some g =>
      match files w !! filename with
      | None => console_print ("[red]File " ++ filename ++ " not found![/red]") w
      | Some config =>
          let original_overwrites := capture_guild w g in
          match import_channels g (cfg_channels config) w with
          | (None, w') =>
              console_print
                ("[green]Configuration imported from " ++ filename ++ "[/green]")
                (set_last_operation
                   (Some (import_config_op original_overwrites filename)) w')
          | (Some e, w') => console_print ("[red]Import failed: " ++ e ++ "[/red]") w'
          end
      end
  end.

(** The event loop runs the created tasks in the order of their creation; an
    exception raised inside a task is never retrieved. *)
Fixpoint run_task_list (ts : list (Channel * gmap Z (gmap string bool))) (w : World)
  : World :=
  match ts with
  | [] => w
  | (channel, new_overwrites) :: rest =>
      run_task_list rest (channel_edit channel new_overwrites w).2
  end.

Definition run_tasks (w : World) : World :=
  run_task_list (tasks w) (set_tasks [] w).

(** ** The flows as one type of call, for statements about all of them *)

Inductive BatchCall :=
| CallRoleToChannels (role : Role) (channels : list Channel)
    (permissions_dict : gmap string bool)
| CallPatternMatch (role_pattern channel_pattern : string)
    (permissions_dict : gmap string bool)
| CallCopyOverwrites (source target : Channel).

(** The world after the call, when the call returns. *)
Definition run_batch (call : BatchCall) (w : World) : option World :=
  match call with
  | CallRoleToChannels role channels permissions_dict =>
      Some (bulk_role_to_channel_permissions role channels permissions_dict w).2
  | CallPatternMatch role_pattern channel_pattern permissions_dict =>
      snd <$> pattern_match_permissions role_pattern channel_pattern permissions_dict w
  | CallCopyOverwrites source target =>
      Some (copy_permissions source target w).2
  end.

(** The channels the call writes to. *)
Definition touched (call : BatchCall) (w : World) : list Channel :=
  match call with
  | CallRoleToChannels _ channels _ => channels
  | CallPatternMatch role_pattern channel_pattern _ =>
      match guild w with
      | None => []
      | Some g =>
          match matching_roles_of g role_pattern with
          | [] => []
          | _ :: _ => matching_channels_of g channel_pattern
          end
      end
  | CallCopyOverwrites _ target => [target]
  end.

(** Whether the call gets as far as recording its operation: a pattern match
    needs a guild and both match sets non-empty, a copy needs its write to be
    accepted. *)
Definition records_operation (call : BatchCall) (w : World) : bool :=
  match call with
  | CallRoleToChannels _ _ _ => true
  | CallPatternMatch role_pattern channel_pattern _ =>
      match guild w with
      | None => false
      | Some g =>
          match matching_roles_of g role_pattern, matching_channels_of g channel_pattern with
          | _ :: _, _ :: _ => true
          | _, _ => false
          end
      end
  | CallCopyOverwrites _ _ =>
      match remote w (requests w) with
      | None => true
      | Some _ => false
      end
  end.

(** ** Notions used in the statements *)

(** The pre-image that a recorded operation holds for a channel id. *)
Definition pre_image (operation : Operation) (id : Z) : option (gmap Z (gmap string bool)) :=
  match operation with
  | bulk_role_to_channel _ _ original_overwrites _ =>
      overwrites <$> original_overwrites !! id
  | pattern_match _ _ _ _ original_overwrites _ =>
      overwrites <$> original_overwrites !! id
  | copy_permissions_op _ target original_overwrites =>
      if decide (channel_id target = id) then Some original_overwrites else None
  | import_config_op original_overwrites _ => original_overwrites !! id
  end.

(** The channels that a rollback of the operation writes to.  There is no
    branch for an import in [rollback_last_operation]. *)
Definition restored_channels (operation : Operation) : list Channel :=
  match operation with
  | bulk_role_to_channel _ channels _ _ => channels
  | pattern_match _ _ _ matching_channels _ _ => matching_channels
  | copy_permissions_op _ target _ => [target]
  | import_config_op _ _ => []
  end.

(** What a flow that only talks to the platform leaves alone. *)
Definition same_manager (w w' : World) : Prop :=
  guild w' = guild w ∧ last_operation w' = last_operation w ∧
  remote w' = remote w ∧ tasks w' = tasks w ∧ console w' = console w ∧
  files w' = files w ∧ clock w' = clock w.

(** The result dictionary of [apply_to_channels], read off the platform's
    answers: the n-th request of the loop is the one for the n-th channel. *)
Fixpoint statuses (key : Channel -> string) (platform : nat -> option string)
    (n : nat) (channels : list Channel) (results : gmap string string)
  : gmap string string :=
  match channels with
  | [] => results
  | channel :: rest =>
      statuses key platform (S n) rest
        (<[key channel := write_status (platform n)]> results)
  end.

(** The store after a successful [restore_channels]. *)
Definition restored_store (original_overwrites : gmap Z OriginalData)
    (channels : list Channel) (st : gmap Z (gmap Z (gmap string bool)))
  : gmap Z (gmap Z (gmap string bool)) :=
  foldl (fun st channel =>
           match original_overwrites !! channel_id channel with
           | Some original_data => <[channel_id channel := overwrites original_data]> st
           | None => st
           end)
        st channels.



(** ** The console front end: what the user types *)

(** The white space that [str.strip()] and [int()] remove, on ASCII: tab to
    carriage return, the four separators and the blank. *)
Definition is_space (c : ascii) : bool :=
  let n := nat_of_ascii c in
  (Nat.leb 9 n && Nat.leb n 13) || (Nat.leb 28 n && Nat.leb n 32).

Fixpoint lstrip (s : string) : string :=
  match s with
  | EmptyString => EmptyString
  | String c s' => if is_space c then lstrip s' else s
  end.

Fixpoint rstrip (s : string) : string :=
  match s with
  | EmptyString => EmptyString
  | String c s' =>
      match rstrip s' with
      | EmptyString => if is_space c then EmptyString else String c EmptyString
      | r => String c r
      end
  end.

(** [s.strip()]. *)
Definition strip (s : string) : string := rstrip (lstrip s).

(** [s.split(sep)] for a separator of one character: at least one piece. *)
Fixpoint split (sep : ascii) (s : string) : list string :=
  match s with
  | EmptyString => [EmptyString]
  | String c s' =>
      if Ascii.eqb c sep then EmptyString :: split sep s'
      else match split sep s' with
           | piece :: pieces => String c piece :: pieces
           | [] => [String c EmptyString]
           end
  end.

(** [s.replace(a, b)] for two strings of one character. *)
Fixpoint replace (a b : ascii) (s : string) : string :=
  match s with
  | EmptyString => EmptyString
  | String c s' => String (if Ascii.eqb c a then b else c) (replace a b s')
  end.

Definition digit_of (c : ascii) : option Z :=
  let n := nat_of_ascii c in
  if Nat.leb 48 n && Nat.leb n 57 then Some (Z.of_nat (n - 48)) else None.

(** The digits of a numeral read by [int()]: at least one digit, and an
    underscore only between two digits. *)
Fixpoint digits_value (s : string) (acc : Z) (after_digit : bool) : option Z :=
  match s with
  | EmptyString => if after_digit then Some acc else None
  | String c s' =>
      match digit_of c with
      | Some d => digits_value s' (10 * acc + d) true
      | None =>
          if Ascii.eqb c "_" && after_digit then digits_value s' acc false
          else None
      end
  end.

(** [int(s)] as the front end uses it on what the user types: white space
    around the numeral, an optional sign, decimal digits with underscores
    between them.  [None] is the [ValueError].  (ASCII digits only.) *)
Definition py_int (s : string) : option Z :=
  match strip s with
  | String "+" digits => digits_value digits 0 false
  | String "-" digits => Z.opp <$> digits_value digits 0 false
  | digits => digits_value digits 0 false
  end.

(** [discord.utils.get(items, name=value)]: the first item with that name. *)
Definition get_role_by_name (roles : list Role) (value : string) : option Role :=
  List.find (fun r => String.eqb (role_name r) value) roles.

Definition get_channel_by_name (channels : list Channel) (value : string)
  : option Channel :=
  List.find (fun c => String.eqb (channel_name c) value) channels.

(** "Find the role" in [bulk_role_to_channel_mode]: the answer is looked up as
    an id when [int] reads it, and by name only when [int] raises. *)
Definition find_role (g : Guild) (roles : list Role) (role_id_answer : string)
  : option Role :=
  match py_int role_id_answer with
  | Some role_id_int => get_role g role_id_int
  | None => get_role_by_name roles role_id_answer
  end.

(** "Find the channel" in the copy and audit modes. *)
Definition find_channel (g : Guild) (channels : list Channel) (channel_id_answer : string)
  : option Channel :=
  match py_int channel_id_answer with
  | Some channel_id_int => get_channel g channel_id_int
  | None => get_channel_by_name channels channel_id_answer
  end.

(** The loop of [bulk_role_to_channel_mode] over the comma separated answer:
    every piece that names a channel, by id or by name, adds that channel. *)
Definition select_channels (g : Guild) (channels : list Channel) (answer : string)
  : list Channel :=
  foldl (fun selected_channels cid =>
           match find_channel g channels (strip cid) with
           | Some channel => (selected_channels ++ [channel])%list
           | None => selected_channels
           end)
        ([] : list Channel) (split "," answer).

(** [{perm: allow for perm in perms}]. *)
Definition dict_of_perms (perms : list string) (allow : bool) : gmap string bool :=
  foldl (fun d perm => <[perm := allow]> d) ∅ perms.

(** The loop of the ['custom'] branch: a piece that is a catalog name once
    blanks and dashes are underscores is asked about; the count is the number
    of questions asked so far. *)
Definition select_custom (confirm : nat -> bool) (selected_perms : list string)
  : gmap string bool * nat :=
  foldl (fun '(result, asked) perm =>
           let perm_clean := replace "-" "_" (replace " " "_" (strip perm)) in
           if bool_decide (perm_clean ∈ permissions)
           then (<[perm_clean := confirm asked]> result, S asked)
           else (result, asked))
        (∅, 0%nat) selected_perms.

(** The indices of the numeric branch, [None] when [int] raises on a piece. *)
Definition selection_indices (choice : string) : option (list Z) :=
  mapM (fun x => (fun n => n - 1) <$> py_int (strip x)) (split "," choice).

(** [[perms[i] for i in indices if 0 <= i < len(perms)]]. *)
Definition perms_at (perms : list string) (indices : list Z) : list string :=
  omap (fun i => if (0 <=? i) && (i <? Z.of_nat (length perms))
                 then perms !! Z.to_nat i else None) indices.

(** [select_permissions_interactive], the dictionary it returns.  The answers
    are what [Prompt.ask] returns at "Your choice" and at "Enter permission
    names", and what [Confirm.ask] returns for the yes/no questions in the
    order they are asked.  What the function prints is left out. *)
Definition select_permissions_interactive (choice_answer names_answer : string)
    (confirm : nat -> bool) : gmap string bool :=
  let perms := permissions in
  let choice := lower choice_answer in
  if String.eqb choice "all" then dict_of_perms perms (confirm 0%nat)
  else if String.eqb choice "none" then ∅
  else if String.eqb choice "custom" then
    let perm_names := lower names_answer in
    let selected_perms := strip <$> split "," perm_names in
    (select_custom confirm selected_perms).1
  else
    match selection_indices choice with
    | Some indices =>
        match perms_at perms indices with
        | [] => ∅
        | selected_perms => dict_of_perms selected_perms (confirm 0%nat)
        end
    | None => ∅
    end.

(** One cell and one row of the table of [audit_permissions_mode]: the role's
    name and its state for the first ten catalog names. *)
Definition audit_cell (overwrite : gmap string bool) (perm : string) : string :=
  if hasattr perm then
    match overwrite !! perm with
    | Some true => "[green]ALLOW[/green]"
    | Some false => "[red]DENY[/red]"
    | None => "[yellow]DEFAULT[/yellow]"
    end
  else "-".

Definition audit_row (role : Role) (overwrite : gmap string bool) : list string :=
  role_name role :: (audit_cell overwrite <$> take 10 permissions).

(** ** The permission merge *)

Lemma set_permissions_lookup (permissions_dict : gmap string bool)
    (overwrite : gmap string bool) (perm_name : string) :
  set_permissions permissions_dict overwrite !! perm_name =
  match permissions_dict !! perm_name with
  | Some value => if hasattr perm_name then Some value else overwrite !! perm_name
  | None => overwrite !! perm_name
  end.
Proof.
  unfold set_permissions.
  apply (map_fold_weak_ind
           (fun r (m : gmap string bool) =>
              r !! perm_name =
              match m !! perm_name with
              | Some value => if hasattr perm_name then Some value else overwrite !! perm_name
              | None => overwrite !! perm_name
              end)).
  - by rewrite lookup_empty.
  - intros i x m r Hi IH. unfold set_permission, setattr.
    destruct (decide (i = perm_name)) as [->|Hne].
    + rewrite lookup_insert_eq. rewrite Hi in IH.
      destruct (hasattr perm_name); [by rewrite lookup_insert_eq|done].
    + rewrite (lookup_insert_ne m) by done.
      destruct (hasattr i); [by rewrite lookup_insert_ne|done].
Qed.

Lemma set_permissions_empty (overwrite : gmap string bool) :
  set_permissions ∅ overwrite = overwrite.
Proof. apply map_eq; intros k. by rewrite set_permissions_lookup, lookup_empty. Qed.

Lemma set_permissions_items_lookup (items : list (string * bool)) :
  NoDup items.*1 →
  ∀ (overwrite : gmap string bool) (perm_name : string),
    set_permissions_items items overwrite !! perm_name =
    match (list_to_map items : gmap string bool) !! perm_name with
    | Some value => if hasattr perm_name then Some value else overwrite !! perm_name
    | None => overwrite !! perm_name
    end.
Proof.
  induction items as [|[k v] items IH]; intros Hnd overwrite perm_name; [done|].
  apply NoDup_cons in Hnd as [Hk Hnd]. cbn [set_permissions_items foldl fst snd].
  change (foldl _ ?a items) with (set_permissions_items items a).
  rewrite IH by done. cbn [list_to_map foldr uncurry fst snd].
  apply (not_elem_of_list_to_map_1 (M:=gmap string)) in Hk. simpl in Hk.
  unfold set_permission, setattr.
  destruct (decide (k = perm_name)) as [->|Hne].
  - rewrite Hk, lookup_insert_eq.
    destruct (hasattr perm_name); [by rewrite lookup_insert_eq|done].
  - rewrite (lookup_insert_ne (list_to_map items)) by done.
    destruct (list_to_map items !! perm_name) as [value|];
      destruct (hasattr k), (hasattr perm_name); try done;
      by rewrite lookup_insert_ne.
Qed.

(** The order in which the dictionary yields its items does not matter: any
    listing of the items without a repeated key gives the result of the fold
    over the map. *)
Lemma set_permissions_items_eq (items : list (string * bool))
    (overwrite : gmap string bool) :
  NoDup items.*1 →
  set_permissions_items items overwrite = set_permissions (list_to_map items) overwrite.
Proof.
  intros Hnd. apply map_eq; intros k.
  by rewrite set_permissions_items_lookup, set_permissions_lookup.
Qed.

Lemma compute_new_overwrite_lookup (current : option (gmap string bool))
    (requested : gmap string bool) (perm_name : string) :
  compute_new_overwrite current requested !! perm_name =
  match requested !! perm_name with
  | Some value =>
      if hasattr perm_name then Some value else default ∅ current !! perm_name
  | None => default ∅ current !! perm_name
  end.
Proof. apply set_permissions_lookup. Qed.

Lemma merge_role_lookup (role : Role) (permissions_dict : gmap string bool)
    (channel_overwrites : gmap Z (gmap string bool)) (other : Z) :
  merge_role role permissions_dict channel_overwrites !! other =
  if decide (role_id role = other)
  then Some (compute_new_overwrite (channel_overwrites !! other) permissions_dict)
  else channel_overwrites !! other.
Proof.
  unfold merge_role. rewrite lookup_insert.
  case_decide; [by subst|done].
Qed.


(** C9: for requested maps with disjoint keys, merging the first and then the
    second gives the record that merging their union gives in one step. *)
Theorem merge_disjoint_union (r : gmap string bool) (m1 m2 : gmap string bool) :
  dom m1 ## dom m2 →
  compute_new_overwrite (Some (compute_new_overwrite (Some r) m1)) m2 =
  compute_new_overwrite (Some r) (m1 ∪ m2).
Proof.
  intros Hdisj%map_disjoint_dom. apply map_eq; intros k.
  unfold compute_new_overwrite. simpl. rewrite !set_permissions_lookup.
  destruct (m1 !! k) as [v1|] eqn:H1, (m2 !! k) as [v2|] eqn:H2.
  - exfalso. by apply (proj1 (map_disjoint_spec m1 m2) Hdisj k v1 v2).
  - rewrite (lookup_union_Some_l m1 m2 k v1 H1). done.
  - rewrite (lookup_union_r m1 m2 k H1), H2. done.
  - rewrite (lookup_union_r m1 m2 k H1), H2. done.
Qed.

(** C2, as the code has it: a requested name that the overwrite type does not
    have as an attribute is dropped without error: the merge gives what it
    gives when the name is not requested, and the entry of the record under
    that name is left as it was, so the merge never sets it.  What the merge
    tests is the attribute, not the catalog. *)
Theorem merge_drops_names_without_attribute (current : option (gmap string bool))
    (requested : gmap string bool) (name : string) :
  is_Some (requested !! name) →
  hasattr name = false →
  compute_new_overwrite current requested =
    compute_new_overwrite current (delete name requested) ∧
  compute_new_overwrite current requested !! name = default ∅ current !! name.
Proof.
  intros [value Hreq] Hattr. split.
  - apply map_eq; intros k. rewrite !compute_new_overwrite_lookup.
    destruct (decide (k = name)) as [->|Hne].
    + by rewrite Hreq, Hattr, lookup_delete_eq.
    + by rewrite lookup_delete_ne.
  - by rewrite compute_new_overwrite_lookup, Hreq, Hattr.
Qed.

(** ** One write request *)

Lemma channel_edit_answer (channel : Channel) (m : gmap Z (gmap string bool)) (w : World) :
  (channel_edit channel m w).1 = remote w (requests w).
Proof. unfold channel_edit. by destruct (remote w (requests w)). Qed.

Lemma channel_edit_requests (channel : Channel) (m : gmap Z (gmap string bool)) (w : World) :
  requests (channel_edit channel m w).2 = S (requests w).
Proof. unfold channel_edit. by destruct (remote w (requests w)). Qed.

Lemma channel_edit_same_manager (channel : Channel) (m : gmap Z (gmap string bool))
    (w : World) :
  same_manager w (channel_edit channel m w).2.
Proof. unfold channel_edit, same_manager. by destruct (remote w (requests w)). Qed.

Lemma channel_edit_store (channel : Channel) (m : gmap Z (gmap string bool)) (w : World) :
  store (channel_edit channel m w).2 =
  match remote w (requests w) with
  | None => <[channel_id channel := m]> (store w)
  | Some _ => store w
  end.
Proof. unfold channel_edit. by destruct (remote w (requests w)). Qed.

Lemma same_manager_refl (w : World) : same_manager w w.
Proof. by unfold same_manager. Qed.

Lemma same_manager_trans (w1 w2 w3 : World) :
  same_manager w1 w2 → same_manager w2 w3 → same_manager w1 w3.
Proof. unfold same_manager. intros (?&?&?&?&?&?&?) (?&?&?&?&?&?&?). repeat split; congruence. Qed.

(** ** The loop over the channels *)

Lemma apply_to_channels_frame (role : Role) (permissions_dict : gmap string bool)
    (key : Channel → string) (channels : list Channel) :
  ∀ (results : gmap string string) (w : World),
    let out := apply_to_channels role permissions_dict key channels results w in
    same_manager w out.2 ∧
    requests out.2 = (requests w + length channels)%nat ∧
    out.1 = statuses key (remote w) (requests w) channels results.
Proof.
  induction channels as [|channel rest IH]; intros results w; cbn zeta.
  - cbn. split; [apply same_manager_refl|]. split; [lia|done].
  - cbn [apply_to_channels statuses length].
    destruct (channel_edit channel _ w) as [answer w'] eqn:Hedit.
    pose proof (channel_edit_same_manager channel
                  (merge_role role permissions_dict (channel_overwrites w channel)) w) as Hsm.
    pose proof (channel_edit_requests channel
                  (merge_role role permissions_dict (channel_overwrites w channel)) w) as Hrq.
    pose proof (channel_edit_answer channel
                  (merge_role role permissions_dict (channel_overwrites w channel)) w) as Hans.
    rewrite Hedit in Hsm, Hrq, Hans. cbn [fst snd] in Hsm, Hrq, Hans.
    destruct (IH (<[key channel := write_status answer]> results) w') as (Hsm' & Hrq' & Hres).
    split; [by eapply same_manager_trans|].
    split; [rewrite Hrq', Hrq; lia|].
    rewrite Hres, Hrq, Hans. by destruct Hsm as (_ & _ & -> & _).
Qed.

Lemma statuses_lookup_other (key : Channel → string) (platform : nat → option string)
    (channels : list Channel) :
  ∀ (n : nat) (results : gmap string string) (k : string),
    k ∉ key <$> channels →
    statuses key platform n channels results !! k = results !! k.
Proof.
  induction channels as [|channel rest IH]; intros n results k Hk; [done|].
  cbn [statuses]. rewrite fmap_cons, not_elem_of_cons in Hk. destruct Hk as [Hne Hk].
  rewrite IH by done. by rewrite lookup_insert_ne.
Qed.

(** With pairwise distinct keys, the entry of the i-th channel is the status
    of the i-th request of the loop. *)
Lemma statuses_lookup (key : Channel → string) (platform : nat → option string)
    (channels : list Channel) :
  NoDup (key <$> channels) →
  ∀ (n : nat) (results : gmap string string) (i : nat) (channel : Channel),
    channels !! i = Some channel →
    statuses key platform n channels results !! key channel =
    Some (write_status (platform (n + i)%nat)).
Proof.
  induction channels as [|c rest IH]; intros Hnd n results i channel Hi; [done|].
  rewrite fmap_cons in Hnd. apply NoDup_cons in Hnd as [Hc Hnd].
  cbn [statuses]. destruct i as [|i]; cbn in Hi.
  - injection Hi as ->. rewrite statuses_lookup_other by done.
    rewrite lookup_insert_eq. by rewrite Nat.add_0_r.
  - rewrite (IH Hnd (S n) _ i channel Hi). do 3 f_equal. lia.
Qed.

(** ** The captured pre-images *)

Lemma capture_originals_lookup (w : World) (channels : list Channel) (id : Z) :
  capture_originals w channels !! id =
  if decide (id ∈ channel_id <$> channels)
  then Some {| overwrites := default ∅ (store w !! id) |}
  else None.
Proof.
  unfold capture_originals.
  assert (Hgen : ∀ acc : gmap Z OriginalData,
            foldl (fun acc channel =>
                     <[channel_id channel :=
                         {| overwrites := channel_overwrites w channel |}]> acc)
                  acc channels !! id =
            if decide (id ∈ channel_id <$> channels)
            then Some {| overwrites := default ∅ (store w !! id) |}
            else acc !! id).
  { induction channels as [|c rest IH]; intros acc.
    - cbn. case_decide as H; [by apply elem_of_nil in H|done].
    - cbn [foldl]. rewrite IH. rewrite fmap_cons.
      destruct (decide (id ∈ channel_id <$> rest)) as [Hin|Hnin].
      + rewrite decide_True by (apply elem_of_cons; by right). done.
      + destruct (decide (id = channel_id c)) as [->|Hne].
        * rewrite decide_True by (apply elem_of_cons; by left).
          by rewrite lookup_insert_eq.
        * rewrite decide_False by (by rewrite not_elem_of_cons).
          by rewrite lookup_insert_ne. }
  rewrite Hgen. by case_decide.
Qed.

Lemma capture_originals_pre_image (w : World) (channels : list Channel) (channel : Channel) :
  channel ∈ channels →
  capture_originals w channels !! channel_id channel =
  Some {| overwrites := channel_overwrites w channel |}.
Proof.
  intros Hin. rewrite capture_originals_lookup.
  rewrite decide_True; [done|]. by apply list_elem_of_fmap_2.
Qed.

(** ** The restoring loop *)

Lemma restored_store_lookup (original_overwrites : gmap Z OriginalData)
    (channels : list Channel) :
  ∀ (st : gmap Z (gmap Z (gmap string bool))) (channel : Channel)
    (original_data : OriginalData),
    channel ∈ channels →
    original_overwrites !! channel_id channel = Some original_data →
    restored_store original_overwrites channels st !! channel_id channel =
    Some (overwrites original_data).
Proof.
  unfold restored_store.
  induction channels as [|c rest IH] using rev_ind; intros st channel d Hin Hd.
  - by apply elem_of_nil in Hin.
  - rewrite foldl_snoc.
    destruct (decide (channel_id c = channel_id channel)) as [Heq|Hne].
    + rewrite Heq, Hd. by rewrite lookup_insert_eq.
    + apply elem_of_app in Hin as [Hin|Hin%list_elem_of_singleton]; [|by subst].
      destruct (original_overwrites !! channel_id c).
      * rewrite lookup_insert_ne by done. by apply IH.
      * by apply IH.
Qed.

Lemma restore_channels_accepted (channels : list Channel)
    (original_overwrites : gmap Z OriginalData) :
  ∀ (w w' : World),
    restore_channels channels original_overwrites w = (None, w') →
    same_manager w w' ∧
    store w' = restored_store original_overwrites channels (store w) ∧
    (requests w ≤ requests w')%nat ∧
    (∀ n, (requests w ≤ n < requests w')%nat → remote w n = None).
Proof.
  induction channels as [|c rest IH]; intros w w' Hrun.
  - cbn in Hrun. injection Hrun as <-.
    split; [apply same_manager_refl|]. repeat split; [done|intros; lia].
  - cbn [restore_channels] in Hrun. unfold restored_store. cbn [foldl].
    destruct (original_overwrites !! channel_id c) as [d|]; [|by apply IH].
    pose proof (channel_edit_same_manager c (overwrites d) w) as Hsm.
    pose proof (channel_edit_requests c (overwrites d) w) as Hrq.
    pose proof (channel_edit_answer c (overwrites d) w) as Hans.
    pose proof (channel_edit_store c (overwrites d) w) as Hst.
    destruct (channel_edit c (overwrites d) w) as [[e|] w1]; [done|].
    cbn [fst snd] in *. rewrite <- Hans in Hst.
    destruct (IH _ _ Hrun) as (Hsm' & Hst' & Hle & Hacc).
    split; [by eapply same_manager_trans|].
    split; [by rewrite Hst', Hst|]. split; [lia|].
    intros n Hn. destruct (decide (n = requests w)) as [->|Hne]; [done|].
    destruct Hsm as (_ & _ & <- & _). apply Hacc. lia.
Qed.

Lemma restore_channels_rejected (channels : list Channel)
    (original_overwrites : gmap Z OriginalData) :
  ∀ (w w' : World) (e : string),
    restore_channels channels original_overwrites w = (Some e, w') →
    same_manager w w' ∧
    (requests w < requests w')%nat ∧
    remote w (pred (requests w')) = Some e.
Proof.
  induction channels as [|c rest IH]; intros w w' e Hrun; [done|].
  cbn [restore_channels] in Hrun.
  destruct (original_overwrites !! channel_id c) as [d|]; [|by apply IH].
  pose proof (channel_edit_same_manager c (overwrites d) w) as Hsm.
  pose proof (channel_edit_requests c (overwrites d) w) as Hrq.
  pose proof (channel_edit_answer c (overwrites d) w) as Hans.
  destruct (channel_edit c (overwrites d) w) as [[e1|] w1]; cbn [fst snd] in *.
  - injection Hrun as -> ->. split; [done|]. split; [lia|].
    by rewrite Hrq.
  - destruct (IH _ _ _ Hrun) as (Hsm' & Hlt & Hrej).
    split; [by eapply same_manager_trans|]. split; [lia|].
    by destruct Hsm as (_ & _ & <- & _).
Qed.

Lemma apply_to_channels_store (role : Role) (permissions_dict : gmap string bool)
    (key : Channel → string) (channels : list Channel) :
  NoDup (channel_id <$> channels) →
  ∀ (results : gmap string string) (w : World),
    let out := apply_to_channels role permissions_dict key channels results w in
    (∀ (i : nat) (channel : Channel),
        channels !! i = Some channel →
        channel_overwrites out.2 channel =
        match remote w (requests w + i)%nat with
        | None => merge_role role permissions_dict (channel_overwrites w channel)
        | Some _ => channel_overwrites w channel
        end) ∧
    (∀ id, id ∉ channel_id <$> channels → store out.2 !! id = store w !! id).
Proof.
  induction channels as [|c rest IH]; intros Hnd results w; cbn zeta.
  { split; [by intros i channel Hi|done]. }
  rewrite fmap_cons in Hnd. apply NoDup_cons in Hnd as [Hc Hnd].
  cbn [apply_to_channels].
  set (m := merge_role role permissions_dict (channel_overwrites w c)).
  pose proof (channel_edit_same_manager c m w) as Hsm.
  pose proof (channel_edit_requests c m w) as Hrq.
  pose proof (channel_edit_store c m w) as Hst.
  destruct (channel_edit c m w) as [answer w']. cbn [fst snd] in *.
  destruct (IH Hnd (<[key c := write_status answer]> results) w') as [Hin Hout].
  destruct Hsm as (_ & _ & Hrem & _).
  split.
  - intros [|i] channel Hi; cbn in Hi.
    + injection Hi as <-. unfold channel_overwrites at 1.
      rewrite (Hout _ Hc), Hst, Nat.add_0_r.
      destruct (remote w (requests w)); [done|]. by rewrite lookup_insert_eq.
    + rewrite (Hin i channel Hi), Hrem, Hrq.
      assert (Hne : channel_id c ≠ channel_id channel).
      { intros Heq. apply Hc. rewrite Heq.
        apply list_elem_of_fmap_2. by eapply list_elem_of_lookup_2. }
      assert (Hsame : channel_overwrites w' channel = channel_overwrites w channel).
      { unfold channel_overwrites. rewrite Hst.
        destruct (remote w (requests w)); [done|]. by rewrite lookup_insert_ne. }
      rewrite Hsame. by replace (S (requests w) + i)%nat with (requests w + S i)%nat by lia.
  - intros id Hid. rewrite fmap_cons, not_elem_of_cons in Hid. destruct Hid as [Hne Hid].
    rewrite (Hout id Hid), Hst.
    destruct (remote w (requests w)); [done|]. by rewrite lookup_insert_ne.
Qed.

Lemma apply_to_pairs_frame (roles : list Role) (channels : list Channel)
    (permissions_dict : gmap string bool) :
  ∀ (results : gmap string string) (w : World),
    let out := apply_to_pairs roles channels permissions_dict results w in
    same_manager w out.2 ∧
    requests out.2 = (requests w + length roles * length channels)%nat.
Proof.
  induction roles as [|role rest IH]; intros results w; cbn zeta.
  - cbn. split; [apply same_manager_refl|lia].
  - cbn [apply_to_pairs length].
    pose proof (apply_to_channels_frame role permissions_dict
                  (fun channel => role_name role ++ " -> " ++ channel_name channel)
                  channels results w) as Hin.
    cbn zeta in Hin. destruct (apply_to_channels _ _ _ _ _ _) as [results' w'].
    cbn [fst snd] in Hin. destruct Hin as (Hsm & Hrq & _).
    destruct (IH results' w') as (Hsm' & Hrq').
    split; [by eapply same_manager_trans|]. rewrite Hrq', Hrq. lia.
Qed.

(** ** What a flow records, and what it leaves when it records nothing *)

Lemma batch_records_pre_images (call : BatchCall) (w w1 : World) :
  run_batch call w = Some w1 →
  records_operation call w = true →
  ∃ operation,
    last_operation w1 = Some operation ∧
    restored_channels operation = touched call w ∧
    ∀ channel, channel ∈ touched call w →
      pre_image operation (channel_id channel) = Some (channel_overwrites w channel).
Proof.
  destruct call as [role channels permissions_dict
                   |role_pattern channel_pattern permissions_dict
                   |source target]; cbn [run_batch records_operation touched].
  - intros Hrun _. unfold bulk_role_to_channel_permissions in Hrun.
    destruct (apply_to_channels _ _ _ _ _ _) as [results w'].
    injection Hrun as <-. eexists. split; [done|]. split; [done|].
    intros channel Hin. cbn [pre_image].
    by rewrite capture_originals_pre_image.
  - unfold pattern_match_permissions.
    destruct (guild w) as [g|]; [|done].
    destruct (matching_roles_of g role_pattern) as [|r rs]; [done|].
    destruct (matching_channels_of g channel_pattern) as [|c cs]; [done|].
    destruct (apply_to_pairs _ _ _ _ _) as [results w'].
    intros Hrun _. injection Hrun as <-. eexists. split; [done|]. split; [done|].
    intros channel Hin. cbn [pre_image].
    by rewrite capture_originals_pre_image.
  - unfold copy_permissions, channel_edit.
    destruct (remote w (requests w)); [done|].
    intros Hrun _. injection Hrun as <-. eexists. split; [done|]. split; [done|].
    intros channel ->%list_elem_of_singleton. cbn [pre_image].
    by rewrite decide_True.
Qed.

Lemma batch_without_record (call : BatchCall) (w w1 : World) :
  run_batch call w = Some w1 →
  records_operation call w = false →
  guild w1 = guild w ∧ last_operation w1 = last_operation w ∧
  store w1 = store w ∧ tasks w1 = tasks w ∧ files w1 = files w.
Proof.
  destruct call as [role channels permissions_dict
                   |role_pattern channel_pattern permissions_dict
                   |source target]; cbn [run_batch records_operation]; [done| |].
  - unfold pattern_match_permissions.
    destruct (guild w) as [g|] eqn:Hg; [|done].
    destruct (matching_roles_of g role_pattern) as [|r rs].
    { intros Hrun _. by injection Hrun as <-. }
    destruct (matching_channels_of g channel_pattern) as [|c cs]; [|done].
    intros Hrun _. by injection Hrun as <-.
  - unfold copy_permissions, channel_edit.
    destruct (remote w (requests w)); [|done].
    intros Hrun _. by injection Hrun as <-.
Qed.

(** ** Rollback *)

Lemma restore_operation_accepted (operation : Operation) (w w' : World) :
  restore_operation operation w = (None, w') →
  same_manager w w' ∧
  (requests w ≤ requests w')%nat ∧
  (∀ n, (requests w ≤ n < requests w')%nat → remote w n = None) ∧
  ∀ channel original, channel ∈ restored_channels operation →
    pre_image operation (channel_id channel) = Some original →
    channel_overwrites w' channel = original.
Proof.
  destruct operation as [role channels original_overwrites new_permissions
                        |rp cp mroles mchannels original_overwrites new_permissions
                        |source target original_overwrites
                        |original_overwrites imported_from];
    cbn [restore_operation restored_channels pre_image]; intros Hrun.
  - destruct (restore_channels_accepted _ _ _ _ Hrun) as (Hsm & Hst & Hle & Hacc).
    split; [done|]. split; [done|]. split; [done|].
    intros channel original Hin Hpre. unfold channel_overwrites. rewrite Hst.
    destruct (original_overwrites !! channel_id channel) as [d|] eqn:Hd; [|done].
    rewrite (restored_store_lookup _ _ _ _ _ Hin Hd). by injection Hpre as <-.
  - destruct (restore_channels_accepted _ _ _ _ Hrun) as (Hsm & Hst & Hle & Hacc).
    split; [done|]. split; [done|]. split; [done|].
    intros channel original Hin Hpre. unfold channel_overwrites. rewrite Hst.
    destruct (original_overwrites !! channel_id channel) as [d|] eqn:Hd; [|done].
    rewrite (restored_store_lookup _ _ _ _ _ Hin Hd). by injection Hpre as <-.
  - pose proof (channel_edit_same_manager target original_overwrites w) as Hsm.
    pose proof (channel_edit_requests target original_overwrites w) as Hrq.
    pose proof (channel_edit_answer target original_overwrites w) as Hans.
    pose proof (channel_edit_store target original_overwrites w) as Hst.
    rewrite Hrun in Hsm, Hrq, Hans, Hst. cbn [fst snd] in *.
    rewrite <- Hans in Hst.
    split; [done|]. split; [lia|]. split.
    + intros n Hn. by replace n with (requests w) by lia.
    + intros channel original ->%list_elem_of_singleton Hpre.
      rewrite decide_True in Hpre by done. injection Hpre as <-.
      unfold channel_overwrites. by rewrite Hst, lookup_insert_eq.
  - injection Hrun as <-. split; [apply same_manager_refl|].
    split; [done|]. split; [intros; lia|]. by intros channel original Hin%elem_of_nil.
Qed.

Lemma restore_operation_rejected (operation : Operation) (w w' : World) (e : string) :
  restore_operation operation w = (Some e, w') →
  same_manager w w' ∧ (requests w < requests w')%nat ∧
  remote w (pred (requests w')) = Some e.
Proof.
  destruct operation as [role channels original_overwrites new_permissions
                        |rp cp mroles mchannels original_overwrites new_permissions
                        |source target original_overwrites
                        |original_overwrites imported_from];
    cbn [restore_operation]; intros Hrun;
    [by eapply restore_channels_rejected|by eapply restore_channels_rejected| |done].
  pose proof (channel_edit_same_manager target original_overwrites w) as Hsm.
  pose proof (channel_edit_requests target original_overwrites w) as Hrq.
  pose proof (channel_edit_answer target original_overwrites w) as Hans.
  rewrite Hrun in Hsm, Hrq, Hans. cbn [fst snd] in *.
  split; [done|]. split; [lia|]. by rewrite Hrq.
Qed.

Lemma rollback_recorded (operation : Operation) (w w2 : World) :
  last_operation w = Some operation →
  rollback_last_operation w = (true, w2) →
  last_operation w2 = None ∧
  ∀ channel original, channel ∈ restored_channels operation →
    pre_image operation (channel_id channel) = Some original →
    channel_overwrites w2 channel = original.
Proof.
  intros Hop. unfold rollback_last_operation. rewrite Hop.
  destruct (restore_operation operation w) as [[e|] w'] eqn:Hrun; [done|].
  intros Hroll. injection Hroll as <-. split; [done|].
  destruct (restore_operation_accepted _ _ _ Hrun) as (_ & _ & _ & Hres).
  intros channel original Hin Hpre. by apply (Hres channel original Hin Hpre).
Qed.

(** C1: when a Role→Channels, Pattern Match or Copy Overwrites flow has
    performed its operation and the rollback that follows succeeds, the
    operation held for every channel it touched the overwrite map the channel
    had before the flow began, and after the rollback the channel has exactly
    that map again. *)
Theorem rollback_restores_pre_operation_state (call : BatchCall) (w w1 w2 : World) :
  run_batch call w = Some w1 →
  records_operation call w = true →
  rollback_last_operation w1 = (true, w2) →
  ∀ channel, channel ∈ touched call w →
    (∃ operation,
        last_operation w1 = Some operation ∧
        pre_image operation (channel_id channel) = Some (channel_overwrites w channel)) ∧
    channel_overwrites w2 channel = channel_overwrites w channel.
Proof.
  intros Hrun Hrec Hroll channel Hin.
  destruct (batch_records_pre_images call w w1 Hrun Hrec) as (operation & Hop & Hchs & Hpre).
  split; [by exists operation; split; [|apply Hpre]|].
  destruct (rollback_recorded operation w1 w2 Hop Hroll) as [_ Hres].
  apply Hres; [by rewrite Hchs|by apply Hpre].
Qed.

Lemma restore_channels_when_accepted (channels : list Channel)
    (original_overwrites : gmap Z OriginalData) :
  ∀ w, (∀ n, (requests w ≤ n)%nat → remote w n = None) →
       (restore_channels channels original_overwrites w).1 = None.
Proof.
  induction channels as [|c rest IH]; intros w Hacc; [done|].
  cbn [restore_channels].
  destruct (original_overwrites !! channel_id c) as [d|]; [|by apply IH].
  pose proof (channel_edit_same_manager c (overwrites d) w) as (_ & _ & Hrem & _).
  pose proof (channel_edit_requests c (overwrites d) w) as Hrq.
  pose proof (channel_edit_answer c (overwrites d) w) as Hans.
  rewrite (Hacc (requests w)) in Hans by lia.
  destruct (channel_edit c (overwrites d) w) as [[e|] w1]; cbn [fst snd] in *; [done|].
  apply IH. intros n Hn. rewrite Hrem. apply Hacc. lia.
Qed.

(** C3, as the code has it, for requested names of the catalog: every channel
    of the list is processed, one write request each, whatever the answers to
    the earlier ones, and the recorded operation holds the pre-image of every
    channel of the list; when the names of the channels are pairwise distinct
    the result map has under each channel's name the status of that channel's
    write; and a rollback whose own writes are all accepted succeeds and gives
    every channel of the list the map it had before the batch. *)
Theorem bulk_partial_failure (role : Role) (channels : list Channel)
    (permissions_dict : gmap string bool) (w : World) :
  (∀ name, is_Some (permissions_dict !! name) → name ∈ permissions) →
  let out := bulk_role_to_channel_permissions role channels permissions_dict w in
  requests out.2 = (requests w + length channels)%nat ∧
  (∃ operation,
     last_operation out.2 = Some operation ∧
     restored_channels operation = channels ∧
     ∀ channel, channel ∈ channels →
       pre_image operation (channel_id channel) = Some (channel_overwrites w channel)) ∧
  (NoDup (channel_name <$> channels) →
   ∀ (i : nat) (channel : Channel),
     channels !! i = Some channel →
     out.1 !! channel_name channel =
     Some (write_status (remote w (requests w + i)%nat))) ∧
  ((∀ n, (requests out.2 ≤ n)%nat → remote w n = None) →
   ∃ w2,
     rollback_last_operation out.2 = (true, w2) ∧
     ∀ channel, channel ∈ channels →
       channel_overwrites w2 channel = channel_overwrites w channel).
Proof.
  intros _ out. subst out. unfold bulk_role_to_channel_permissions.
  pose proof (apply_to_channels_frame role permissions_dict channel_name channels ∅ w)
    as Hframe.
  cbn zeta in Hframe.
  destruct (apply_to_channels _ _ _ _ _ _) as [results w']. cbn [fst snd] in *.
  destruct Hframe as ((_ & _ & Hrem & _) & Hrq & ->).
  split; [done|]. split; [|split].
  - eexists. split; [done|]. split; [done|].
    intros channel Hin. cbn [pre_image]. by rewrite capture_originals_pre_image.
  - intros Hnd i channel Hi. by apply statuses_lookup.
  - intros Hacc.
    set (operation := bulk_role_to_channel role channels (capture_originals w channels)
                        permissions_dict).
    set (w1 := set_last_operation (Some operation) w').
    assert (Hok : (restore_operation operation w1).1 = None).
    { apply restore_channels_when_accepted. intros n Hn. cbn. rewrite Hrem.
      by apply Hacc. }
    destruct (rollback_last_operation w1) as [ok w2] eqn:Hroll.
    assert (ok = true) as ->.
    { unfold rollback_last_operation in Hroll. cbn [last_operation w1 set_last_operation] in Hroll.
      destruct (restore_operation operation w1) as [[e|] w3]; [done|].
      by injection Hroll as <- _. }
    exists w2. split; [done|].
    intros channel Hin.
    destruct (rollback_recorded operation w1 w2 eq_refl Hroll) as [_ Hres].
    apply Hres; [done|]. cbn [pre_image operation].
    by rewrite capture_originals_pre_image.
Qed.

(** A write of the Role→Channels loop that is accepted leaves the channel with
    the merged map, and one that is rejected leaves it as it was (for a list
    of distinct channels). *)
Lemma bulk_writes (role : Role) (channels : list Channel)
    (permissions_dict : gmap string bool) (w : World) (i : nat) (channel : Channel) :
  NoDup (channel_id <$> channels) →
  channels !! i = Some channel →
  channel_overwrites (bulk_role_to_channel_permissions role channels permissions_dict w).2
    channel =
  match remote w (requests w + i)%nat with
  | None => merge_role role permissions_dict (channel_overwrites w channel)
  | Some _ => channel_overwrites w channel
  end.
Proof.
  intros Hnd Hi. unfold bulk_role_to_channel_permissions.
  pose proof (apply_to_channels_store role permissions_dict channel_name channels Hnd ∅ w)
    as [Hst _].
  destruct (apply_to_channels _ _ _ _ _ _) as [results w']. cbn [fst snd] in *.
  by apply Hst.
Qed.

Lemma rollback_nothing (w : World) :
  last_operation w = None →
  rollback_last_operation w =
  (false, console_print "[yellow]No operation to rollback![/yellow]" w).
Proof. intros Hnone. unfold rollback_last_operation. by rewrite Hnone. Qed.

(** C4: without a recorded operation the rollback changes nothing and reports
    that there is nothing to roll back; a rollback that fails keeps the
    recorded operation, and it fails exactly because a write was rejected;
    a rollback that succeeds had all its writes accepted and clears the
    record, so that the rollback after it finds nothing. *)
Theorem rollback_outcomes (w : World) :
  let out := rollback_last_operation w in
  (last_operation w = None →
     out = (false, console_print "[yellow]No operation to rollback![/yellow]" w)) ∧
  (out.1 = false → last_operation out.2 = last_operation w) ∧
  (out.1 = false → is_Some (last_operation w) →
     (requests w < requests out.2)%nat ∧
     is_Some (remote w (pred (requests out.2)))) ∧
  (out.1 = true →
     ∀ n, (requests w ≤ n < requests out.2)%nat → remote w n = None) ∧
  (out.1 = true →
     last_operation out.2 = None ∧
     rollback_last_operation out.2 =
     (false, console_print "[yellow]No operation to rollback![/yellow]" out.2)).
Proof.
  intros out. subst out. split; [apply rollback_nothing|].
  destruct (rollback_last_operation w) as [ok w2] eqn:Hroll. cbn [fst snd].
  unfold rollback_last_operation in Hroll.
  destruct (last_operation w) as [operation|] eqn:Hop.
  - destruct (restore_operation operation w) as [[e|] w'] eqn:Hrun;
      injection Hroll as <- <-.
    + destruct (restore_operation_rejected _ _ _ _ Hrun) as ((_ & Hlast & _) & Hlt & Hrej).
      split; [intros _; cbn; congruence|].
      split; [intros _ _; cbn; split; [done|by rewrite Hrej]|].
      split; done.
    + destruct (restore_operation_accepted _ _ _ Hrun) as (_ & Hle & Hacc & _).
      split; [done|]. split; [done|].
      split; [intros _ n Hn; by apply Hacc|].
      intros _. split; [done|]. by apply rollback_nothing.
  - injection Hroll as <- <-. split; [intros _; cbn; congruence|].
    split; [by intros _ [? ?]|]. split; done.
Qed.

(** ** Pattern matching *)

Lemma append_cons (a : ascii) (s t : string) : String a s ++ t = String a (s ++ t).
Proof. reflexivity. Qed.

Lemma append_empty (t : string) : EmptyString ++ t = t.
Proof. reflexivity. Qed.

Lemma prefix_spec (needle hay : string) :
  String.prefix needle hay = true ↔ ∃ post, hay = needle ++ post.
Proof.
  revert needle. induction hay as [|b hay IH]; intros [|a needle]; cbn [String.prefix].
  - split; [intros _; by exists EmptyString|done].
  - split; [done|]. intros [post Hp]. by rewrite append_cons in Hp.
  - split; [intros _; by eexists|done].
  - destruct (Ascii.ascii_dec a b) as [->|Hne].
    + rewrite IH. split; intros [post Hp]; exists post;
        rewrite append_cons in *; congruence.
    + split; [done|]. intros [post Hp]. rewrite append_cons in Hp. congruence.
Qed.

(** [contains] is containment as a contiguous part. *)
Lemma contains_spec (needle hay : string) :
  contains needle hay = true ↔ ∃ pre post, hay = pre ++ needle ++ post.
Proof.
  induction hay as [|b hay IH]; cbn [contains].
  - rewrite orb_false_r, prefix_spec. split.
    + intros [post Hp]. by exists EmptyString, post.
    + intros (pre & post & Hp). destruct pre as [|c pre].
      * by exists post.
      * by rewrite append_cons in Hp.
  - rewrite orb_true_iff, prefix_spec, IH. split.
    + intros [[post Hp]|(pre & post & Hp)].
      * by exists EmptyString, post.
      * exists (String b pre), post. rewrite append_cons. by rewrite Hp.
    + intros (pre & post & Hp). destruct pre as [|c pre].
      * left. by exists post.
      * right. rewrite append_cons in Hp. injection Hp as _ Hp. by exists pre, post.
Qed.

(** C6: when no role or no channel of the guild matches its pattern, the flow
    prints a diagnostic and returns an empty result: no write request is made,
    no store entry changes and the recorded operation stays what it was. *)
Theorem pattern_match_aborts_on_empty_match (role_pattern channel_pattern : string)
    (permissions_dict : gmap string bool) (w : World) (g : Guild) :
  guild w = Some g →
  matching_roles_of g role_pattern = [] ∨ matching_channels_of g channel_pattern = [] →
  ∃ diagnostic w',
    pattern_match_permissions role_pattern channel_pattern permissions_dict w =
    Some (∅, w') ∧
    w' = console_print diagnostic w ∧
    (diagnostic = "[yellow]No roles match pattern: " ++ role_pattern ++ "[/yellow]" ∨
     diagnostic = "[yellow]No channels match pattern: " ++ channel_pattern ++ "[/yellow]") ∧
    requests w' = requests w ∧ store w' = store w ∧
    last_operation w' = last_operation w ∧ tasks w' = tasks w.
Proof.
  intros Hg Hempty. unfold pattern_match_permissions. rewrite Hg.
  destruct (matching_roles_of g role_pattern) as [|r rs].
  { eexists _, _. split; [done|]. split; [done|]. split; [by left|done]. }
  destruct Hempty as [Hr|Hc]; [done|]. rewrite Hc.
  eexists _, _. split; [done|]. split; [done|]. split; [by right|done].
Qed.

(** C10: a flow that returns without recording an operation leaves the
    recorded operation and the store as they were, and the rollback after it
    does not report that there is nothing to roll back: when it succeeds, the
    channels of the earlier operation have the maps that operation captured. *)
Theorem aborted_flow_keeps_recorded_operation (call : BatchCall) (w w1 : World) :
  run_batch call w = Some w1 →
  records_operation call w = false →
  last_operation w1 = last_operation w ∧
  store w1 = store w ∧
  ∀ operation, last_operation w = Some operation →
    rollback_last_operation w1 ≠
      (false, console_print "[yellow]No operation to rollback![/yellow]" w1) ∧
    ∀ w2, rollback_last_operation w1 = (true, w2) →
      ∀ channel original, channel ∈ restored_channels operation →
        pre_image operation (channel_id channel) = Some original →
        channel_overwrites w2 channel = original.
Proof.
  intros Hrun Hrec.
  destruct (batch_without_record call w w1 Hrun Hrec) as (_ & Hlast & Hstore & _).
  split; [done|]. split; [done|].
  intros operation Hop. rewrite <- Hlast in Hop. split.
  - unfold rollback_last_operation. rewrite Hop.
    destruct (restore_operation operation w1) as [[e|] w'] eqn:Hres; [|done].
    destruct (restore_operation_rejected _ _ _ _ Hres) as ((_ & _ & _ & _ & Hcon & _) & _).
    intros Heq. apply (f_equal (λ p, console p.2)) in Heq.
    cbn in Heq. rewrite Hcon in Heq. apply app_inv_head in Heq. discriminate.
  - intros w2 Hroll. by apply (rollback_recorded operation w1 w2 Hop Hroll).
Qed.

(** ** Export *)

Lemma int_str (n : Z) : int (str n) = Some n.
Proof.
  unfold int, str. rewrite NilZero.isi.
  - cbn. by rewrite DecimalZ.of_to.
  - destruct n as [|p|p]; cbn; try done.
    intros [=Hp]. by apply DecimalPos.Unsigned.to_uint_nonnil in Hp.
  - destruct n as [|p|p]; cbn; try done.
    intros [=Hp]. by apply DecimalPos.Unsigned.to_uint_nonnil in Hp.
Qed.

Lemma str_inj (a b : Z) : str a = str b → a = b.
Proof.
  intros Heq. apply (f_equal int) in Heq. rewrite !int_str in Heq. congruence.
Qed.

Lemma export_overwrite_lookup (overwrite : gmap string bool) (perm_name : string) :
  export_overwrite overwrite !! perm_name =
  if decide (perm_name ∈ permissions)
  then if hasattr perm_name then Some <$> overwrite !! perm_name else None
  else None.
Proof.
  unfold export_overwrite.
  assert (Hgen : ∀ (names : list string) (acc : gmap string (option bool)),
            foldl (fun overwrite_data name =>
                     if hasattr name then
                       match overwrite !! name with
                       | Some value => <[name := Some value]> overwrite_data
                       | None => overwrite_data
                       end
                     else overwrite_data) acc names !! perm_name =
            if decide (perm_name ∈ names)
            then if hasattr perm_name
                 then match overwrite !! perm_name with
                      | Some value => Some (Some value)
                      | None => acc !! perm_name
                      end
                 else acc !! perm_name
            else acc !! perm_name).
  { induction names as [|name rest IH]; intros acc.
    - cbn. case_decide as H; [by apply elem_of_nil in H|done].
    - cbn [foldl]. rewrite IH.
      destruct (decide (name = perm_name)) as [->|Hne].
      + rewrite (decide_True (P := perm_name ∈ perm_name :: rest))
          by (apply elem_of_cons; by left).
        destruct (hasattr perm_name); [|by case_decide].
        destruct (overwrite !! perm_name) as [value|]; [|by case_decide].
        rewrite lookup_insert_eq. by case_decide.
      + assert (Hacc : (if hasattr name then
                          match overwrite !! name with
                          | Some value => <[name := Some value]> acc
                          | None => acc
                          end
                        else acc) !! perm_name = acc !! perm_name).
        { destruct (hasattr name); [|done].
          destruct (overwrite !! name); [|done]. by rewrite lookup_insert_ne. }
        rewrite Hacc.
        destruct (decide (perm_name ∈ rest)) as [Hin|Hnin].
        * rewrite decide_True by (apply elem_of_cons; by right). done.
        * rewrite decide_False; [done|]. rewrite not_elem_of_cons. by split. }
  rewrite Hgen, lookup_empty.
  case_decide; [|done]. destruct (hasattr perm_name); [|done].
  by destruct (overwrite !! perm_name).
Qed.

Lemma export_overwrites_lookup (channel_overwrites : gmap Z (gmap string bool)) :
  (∀ role, export_overwrites channel_overwrites !! str role =
           match channel_overwrites !! role with
           | Some overwrite =>
               if decide (export_overwrite overwrite = ∅) then None
               else Some (export_overwrite overwrite)
           | None => None
           end) ∧
  (∀ key, is_Some (export_overwrites channel_overwrites !! key) →
          ∃ role, key = str role ∧ is_Some (channel_overwrites !! role)).
Proof.
  unfold export_overwrites.
  apply (map_fold_weak_ind
           (fun r (m : gmap Z (gmap string bool)) =>
              (∀ role, r !! str role =
                       match m !! role with
                       | Some overwrite =>
                           if decide (export_overwrite overwrite = ∅) then None
                           else Some (export_overwrite overwrite)
                       | None => None
                       end) ∧
              (∀ key, is_Some (r !! key) →
                      ∃ role, key = str role ∧ is_Some (m !! role)))).
  - split; [intros role; by rewrite !lookup_empty|].
    intros key [x Hx]. by rewrite lookup_empty in Hx.
  - intros i x m r Hi [IH1 IH2]. unfold export_role. split.
    + intros role. destruct (decide (i = role)) as [->|Hne].
      * rewrite lookup_insert_eq.
        destruct (decide (export_overwrite x = ∅)).
        -- by rewrite IH1, Hi.
        -- by rewrite lookup_insert_eq.
      * rewrite (lookup_insert_ne m) by done.
        destruct (decide (export_overwrite x = ∅)); [apply IH1|].
        rewrite lookup_insert_ne; [apply IH1|]. by intros ?%str_inj.
    + intros key Hkey.
      destruct (decide (export_overwrite x = ∅)).
      * destruct (IH2 key Hkey) as (role & -> & Hrole). exists role. split; [done|].
        rewrite lookup_insert_ne; [done|]. intros ->. rewrite Hi in Hrole.
        by destruct Hrole.
      * destruct (decide (str i = key)) as [<-|Hne].
        -- exists i. by rewrite lookup_insert_eq.
        -- rewrite lookup_insert_ne in Hkey by done.
           destruct (IH2 key Hkey) as (role & -> & Hrole). exists role. split; [done|].
           rewrite lookup_insert_ne; [done|]. by intros ->.
Qed.

(** C7: in the exported configuration every serialized record is non-empty
    and belongs to a role of the channel, every value in it is [true] or
    [false] and is the value explicitly set in the live record (a flag that is
    inherited is not written, neither as [null] nor otherwise), and a live
    record without any explicit flag is not serialized. *)
Theorem export_writes_only_explicit_flags (filename : string) (w : World) (g : Guild) :
  guild w = Some g →
  ∃ config,
    files (export_config filename w) !! filename = Some config ∧
    cfg_channels config = export_channel w <$> guild_channels g ∧
    ∀ channel, channel ∈ guild_channels g →
      let data := cd_overwrites (export_channel w channel) in
      (∀ key overwrite_data, data !! key = Some overwrite_data →
         overwrite_data ≠ ∅ ∧
         ∃ role overwrite,
           key = str role ∧
           channel_overwrites w channel !! role = Some overwrite ∧
           (∀ flag value, overwrite_data !! flag = Some value →
              ∃ b, value = Some b ∧ overwrite !! flag = Some b) ∧
           (∀ flag, overwrite !! flag = None → overwrite_data !! flag = None)) ∧
      (∀ role, channel_overwrites w channel !! role = Some ∅ →
         data !! str role = None).
Proof.
  intros Hg. unfold export_config. rewrite Hg. eexists. cbn [files console_print set_files].
  split; [by rewrite lookup_insert_eq|]. split; [done|].
  intros channel Hin. cbn zeta. cbn [cd_overwrites export_channel].
  destruct (export_overwrites_lookup (channel_overwrites w channel)) as [Hrole Hkeys].
  split.
  - intros key overwrite_data Hdata.
    destruct (Hkeys key) as (role & -> & [overwrite Hlive]); [by eexists|].
    rewrite Hrole, Hlive in Hdata.
    destruct (decide (export_overwrite overwrite = ∅)) as [|Hne]; [done|].
    injection Hdata as <-. split; [done|].
    exists role, overwrite. split; [done|]. split; [done|]. split.
    + intros flag value. rewrite export_overwrite_lookup.
      case_decide; [|done]. destruct (hasattr flag); [|done].
      destruct (overwrite !! flag) as [b|]; [|done].
      intros [= <-]. by exists b.
    + intros flag Hnone. rewrite export_overwrite_lookup, Hnone.
      case_decide; [|done]. by destruct (hasattr flag).
  - intros role Hlive. rewrite Hrole, Hlive.
    rewrite decide_True; [done|].
    apply map_eq; intros flag. rewrite export_overwrite_lookup, !lookup_empty.
    case_decide; [|done]. by destruct (hasattr flag).
Qed.

(** ** Import *)

Lemma import_overwrite_lookup (overwrite_data : gmap string (option bool))
    (perm_name : string) :
  import_overwrite overwrite_data !! perm_name =
  if hasattr perm_name then mjoin (overwrite_data !! perm_name) else None.
Proof.
  unfold import_overwrite.
  apply (map_fold_weak_ind
           (fun r (m : gmap string (option bool)) =>
              r !! perm_name =
              if hasattr perm_name then mjoin (m !! perm_name) else None)).
  - rewrite !lookup_empty. by destruct (hasattr perm_name).
  - intros i x m r Hi IH. unfold setattr.
    destruct (decide (i = perm_name)) as [->|Hne].
    + rewrite lookup_insert_eq. destruct (hasattr perm_name); [|done].
      destruct x as [b|]; cbn; [by rewrite lookup_insert_eq|by rewrite lookup_delete_eq].
    + rewrite (lookup_insert_ne m) by done. rewrite <- IH.
      destruct (hasattr i); [|done].
      destruct x as [b|]; [by rewrite lookup_insert_ne|by rewrite lookup_delete_ne].
Qed.

Lemma get_role_id (g : Guild) (id : Z) (role : Role) :
  get_role g id = Some role → role_id role = id.
Proof.
  unfold get_role. intros [_ Hid]%List.find_some. by apply Z.eqb_eq.
Qed.








(** ** Running the created tasks *)




(** ** Further properties of the merge and of the batch flows *)

(** X1: merging the same requested map a second time changes nothing. *)
Theorem merge_idempotent (current : option (gmap string bool))
    (requested : gmap string bool) :
  compute_new_overwrite (Some (compute_new_overwrite current requested)) requested =
  compute_new_overwrite current requested.
Proof.
  apply map_eq; intros k. unfold compute_new_overwrite. simpl.
  rewrite !set_permissions_lookup.
  destruct (requested !! k); [|done]. by destruct (hasattr k).
Qed.

(** X2: merging a first map and then a second gives the record that one merge
    of both gives, the values of the second winning on the names that both
    request. *)
Theorem merge_sequence (current : option (gmap string bool))
    (m1 m2 : gmap string bool) :
  compute_new_overwrite (Some (compute_new_overwrite current m1)) m2 =
  compute_new_overwrite current (m2 ∪ m1).
Proof.
  apply map_eq; intros k. unfold compute_new_overwrite. simpl.
  rewrite !set_permissions_lookup.
  destruct (m2 !! k) as [v2|] eqn:H2.
  - rewrite (lookup_union_Some_l m2 m1 k v2 H2).
    destruct (hasattr k) eqn:Hk; [done|].
    by destruct (m1 !! k).
  - by rewrite (lookup_union_r m2 m1 k H2).
Qed.

(** X3: in a Role→Channels batch over distinct channels, a write that the
    platform accepts leaves the channel with the merged record for the role
    and with the record it had for every other role; a write that the platform
    rejects leaves the channel's map as it was. *)
Theorem bulk_write_effect (role : Role) (channels : list Channel)
    (permissions_dict : gmap string bool) (w : World) (i : nat) (channel : Channel) :
  NoDup (channel_id <$> channels) →
  channels !! i = Some channel →
  let w' := (bulk_role_to_channel_permissions role channels permissions_dict w).2 in
  match remote w (requests w + i)%nat with
  | None =>
      ∀ other,
        channel_overwrites w' channel !! other =
        if decide (role_id role = other)
        then Some (compute_new_overwrite (channel_overwrites w channel !! other)
                     permissions_dict)
        else channel_overwrites w channel !! other
  | Some _ => channel_overwrites w' channel = channel_overwrites w channel
  end.
Proof.
  intros Hnd Hi w'. subst w'.
  rewrite (bulk_writes role channels permissions_dict w i channel Hnd Hi).
  destruct (remote w (requests w + i)%nat); [done|].
  intros other. apply merge_role_lookup.
Qed.

Lemma apply_to_channels_elsewhere (role : Role) (permissions_dict : gmap string bool)
    (key : Channel → string) (channels : list Channel) (id : Z) :
  id ∉ channel_id <$> channels →
  ∀ (results : gmap string string) (w : World),
    store (apply_to_channels role permissions_dict key channels results w).2 !! id =
    store w !! id.
Proof.
  induction channels as [|c rest IH]; intros Hid results w; [done|].
  rewrite fmap_cons, not_elem_of_cons in Hid. destruct Hid as [Hne Hid].
  cbn [apply_to_channels].
  set (m := merge_role role permissions_dict (channel_overwrites w c)).
  pose proof (channel_edit_store c m w) as Hst.
  destruct (channel_edit c m w) as [answer w1]. cbn [fst snd] in *.
  rewrite (IH Hid), Hst.
  destruct (remote w (requests w)); [done|]. by rewrite lookup_insert_ne.
Qed.

(** X4: a Role→Channels batch changes the map of no channel outside its
    list, whatever the platform answers. *)
Theorem bulk_leaves_other_channels (role : Role) (channels : list Channel)
    (permissions_dict : gmap string bool) (w : World) (other : Channel) :
  channel_id other ∉ channel_id <$> channels →
  channel_overwrites (bulk_role_to_channel_permissions role channels permissions_dict w).2
    other = channel_overwrites w other.
Proof.
  intros Hid. unfold bulk_role_to_channel_permissions.
  pose proof (apply_to_channels_elsewhere role permissions_dict channel_name channels
                (channel_id other) Hid ∅ w) as Hst.
  destruct (apply_to_channels _ _ _ _ _ _) as [results w1]. cbn [fst snd] in *.
  unfold channel_overwrites. cbn [store set_last_operation]. by rewrite Hst.
Qed.

Lemma contains_empty (hay : string) : contains EmptyString hay = true.
Proof. destruct hay; reflexivity. Qed.

Lemma filter_all {A} (f : A → bool) (l : list A) :
  (∀ x, f x = true) → List.filter f l = l.
Proof.
  intros Hf. induction l as [|x l IH]; [done|].
  cbn. by rewrite Hf, IH.
Qed.

(** X6: the empty pattern matches every role and every channel of the guild,
    so a Pattern Match with two empty patterns addresses the whole guild. *)
Theorem empty_pattern_matches_all (g : Guild) :
  matching_roles_of g EmptyString = guild_roles g ∧
  matching_channels_of g EmptyString = guild_channels g.
Proof.
  unfold matching_roles_of, matching_channels_of. cbn [lower].
  split; apply filter_all; intros x; apply contains_empty.
Qed.

(** X8: a Copy Overwrites whose write is accepted returns "Success", leaves
    the target with the map the source had, leaves every other channel as it
    was, and records the target's previous map as the pre-image. *)
Theorem copy_replaces_target (source target : Channel) (w : World) :
  remote w (requests w) = None →
  let out := copy_permissions source target w in
  out.1 = "Success" ∧
  channel_overwrites out.2 target = channel_overwrites w source ∧
  (∀ other, channel_id other ≠ channel_id target →
     channel_overwrites out.2 other = channel_overwrites w other) ∧
  last_operation out.2 =
  Some (copy_permissions_op source target (channel_overwrites w target)).
Proof.
  intros Hacc. unfold copy_permissions, channel_edit. rewrite Hacc. cbn.
  split; [done|]. unfold channel_overwrites. cbn. split.
  - by rewrite lookup_insert_eq.
  - split; [|done]. intros other Hne. by rewrite lookup_insert_ne.
Qed.

Lemma restore_channels_elsewhere (channels : list Channel)
    (original_overwrites : gmap Z OriginalData) (id : Z) :
  id ∉ channel_id <$> channels →
  ∀ w, store (restore_channels channels original_overwrites w).2 !! id = store w !! id.
Proof.
  induction channels as [|c rest IH]; intros Hid w; [done|].
  rewrite fmap_cons, not_elem_of_cons in Hid. destruct Hid as [Hne Hid].
  cbn [restore_channels].
  destruct (original_overwrites !! channel_id c) as [d|]; [|by apply IH].
  pose proof (channel_edit_store c (overwrites d) w) as Hst.
  pose proof (channel_edit_answer c (overwrites d) w) as Hans.
  destruct (channel_edit c (overwrites d) w) as [[e|] w1]; cbn [fst snd] in *.
  - rewrite Hst, <- Hans. done.
  - rewrite (IH Hid), Hst, <- Hans. by rewrite lookup_insert_ne.
Qed.

(** X9: a rollback, whether it succeeds or fails, changes the map of no
    channel outside the channels of the recorded operation. *)
Theorem rollback_touches_only_recorded_channels (operation : Operation) (w : World)
    (other : Channel) :
  last_operation w = Some operation →
  channel_id other ∉ channel_id <$> restored_channels operation →
  channel_overwrites (rollback_last_operation w).2 other = channel_overwrites w other.
Proof.
  intros Hop Hid. unfold rollback_last_operation. rewrite Hop.
  assert (Hst : store (restore_operation operation w).2 !! channel_id other =
                store w !! channel_id other).
  { destruct operation as [role channels original_overwrites new_permissions
                          |rp cp mroles mchannels original_overwrites new_permissions
                          |source target original_overwrites
                          |original_overwrites imported_from];
      cbn [restore_operation restored_channels] in *.
    - by apply restore_channels_elsewhere.
    - by apply restore_channels_elsewhere.
    - rewrite channel_edit_store. destruct (remote w (requests w)); [done|].
      rewrite lookup_insert_ne; [done|]. intros Heq. apply Hid.
      rewrite <- Heq. apply elem_of_cons. by left.
    - done. }
  destruct (restore_operation operation w) as [[e|] w1]; cbn [fst snd] in *;
    unfold channel_overwrites; cbn; by rewrite Hst.
Qed.


(** X11: after a rollback that failed, a second rollback whose writes are all
    accepted restores the pre-image of every channel of the recorded
    operation. *)
Theorem rollback_retry_restores (operation : Operation) (w w1 w2 : World) :
  last_operation w = Some operation →
  rollback_last_operation w = (false, w1) →
  rollback_last_operation w1 = (true, w2) →
  ∀ channel original, channel ∈ restored_channels operation →
    pre_image operation (channel_id channel) = Some original →
    channel_overwrites w2 channel = original.
Proof.
  intros Hop Hfail Hretry.
  assert (Hop1 : last_operation w1 = Some operation).
  { unfold rollback_last_operation in Hfail. rewrite Hop in Hfail.
    destruct (restore_operation operation w) as [[e|] w'] eqn:Hrun; [|done].
    injection Hfail as <-.
    destruct (restore_operation_rejected _ _ _ _ Hrun) as ((_ & Hlast & _) & _).
    cbn. by rewrite Hlast. }
  by apply (rollback_recorded operation w1 w2 Hop1 Hretry).
Qed.

(** ** Further properties of export and import *)

(** X12: the export writes no entry under a name that the catalog does not
    list, even when the live record sets a flag of that name: the file says
    nothing of such a flag. *)
Theorem export_omits_unlisted_flags (overwrite : gmap string bool) (flag : string) :
  flag ∉ permissions →
  export_overwrite overwrite !! flag = None.
Proof.
  intros Hout. rewrite export_overwrite_lookup. by rewrite decide_False.
Qed.

(** X13: for a record of the file whose names are all catalog names, the
    record rebuilt from it sets a catalog flag exactly when the overwrite type
    has the name and the file gives it [true] or [false]; a [null], a name
    that the file does not give and a name that the type does not have leave
    the flag inherited. *)
Theorem import_overwrite_flags (overwrite_data : gmap string (option bool))
    (flag : string) :
  (∀ name, is_Some (overwrite_data !! name) → name ∈ permissions) →
  flag ∈ permissions →
  (hasattr flag = false → import_overwrite overwrite_data !! flag = None) ∧
  (overwrite_data !! flag = None → import_overwrite overwrite_data !! flag = None) ∧
  (overwrite_data !! flag = Some None → import_overwrite overwrite_data !! flag = None) ∧
  (∀ b, hasattr flag = true → overwrite_data !! flag = Some (Some b) →
        import_overwrite overwrite_data !! flag = Some b).
Proof.
  intros _ _. rewrite import_overwrite_lookup. repeat split.
  - by intros ->.
  - intros ->. by destruct (hasattr flag).
  - intros ->. by destruct (hasattr flag).
  - by intros b -> ->.
Qed.

Lemma import_channels_frame (g : Guild) (channels_data : list ChannelData) :
  ∀ w, let out := import_channels g channels_data w in
       guild out.2 = guild w ∧ last_operation out.2 = last_operation w ∧
       store out.2 = store w ∧ remote out.2 = remote w ∧
       requests out.2 = requests w ∧ console out.2 = console w ∧
       files out.2 = files w ∧ clock out.2 = clock w.
Proof.
  induction channels_data as [|cd rest IH]; intros w; cbn zeta; [done|].
  cbn [import_channels].
  destruct (get_channel g (cd_id cd)) as [channel|]; [|apply IH].
  destruct (import_overwrites g (cd_overwrites cd)) as [bad|new_overwrites]; [done|].
  apply (IH (set_tasks _ w)).
Qed.

(** X14: [import_config] itself makes no write request and changes no
    channel, whatever the file holds: the writes it decides on are only
    queued, after the tasks that were already waiting. *)
Theorem import_defers_writes (filename : string) (w : World) :
  let w' := import_config filename w in
  store w' = store w ∧ requests w' = requests w ∧ files w' = files w ∧
  guild w' = guild w.
Proof.
  cbn zeta. unfold import_config.
  destruct (guild w) as [g|] eqn:Hg; [|by rewrite <- Hg].
  destruct (files w !! filename) as [config|]; [|by rewrite <- Hg].
  pose proof (import_channels_frame g (cfg_channels config) w) as Hframe.
  cbn zeta in Hframe.
  destruct (import_channels g (cfg_channels config) w) as [[e|] w1]; cbn [fst snd] in *;
    destruct Hframe as (Hg1 & _ & Hst & _ & Hrq & _ & Hfs & _); cbn;
    by rewrite Hst, Hrq, Hfs, Hg1.
Qed.

Lemma import_overwrites_roles (g : Guild)
    (data : gmap string (gmap string (option bool))) :
  ∀ new_overwrites, import_overwrites g data = inr new_overwrites →
    ∀ role, is_Some (new_overwrites !! role) →
      ∃ r, r ∈ guild_roles g ∧ role_id r = role.
Proof.
  unfold import_overwrites.
  apply (map_fold_weak_ind
           (fun r (m : gmap string (gmap string (option bool))) =>
              ∀ new_overwrites : gmap Z (gmap string bool),
                r = inr new_overwrites →
                ∀ role, is_Some (new_overwrites !! role) →
                        ∃ r', r' ∈ guild_roles g ∧ role_id r' = role)).
  - intros new_overwrites [= <-] role [x Hx]. by rewrite lookup_empty in Hx.
  - intros i x m r Hi IH new_overwrites Hstep role Hrole.
    unfold import_role in Hstep. destruct r as [bad|m0]; [done|].
    destruct (int i) as [id|]; [|done].
    destruct (get_role g id) as [r'|] eqn:Hget.
    + injection Hstep as <-.
      destruct (decide (role_id r' = role)) as [<-|Hne].
      * exists r'. split; [|done].
        unfold get_role in Hget. apply List.find_some in Hget as [Hin _].
        by apply list_elem_of_In.
      * rewrite lookup_insert_ne in Hrole by done. by apply (IH m0).
    + injection Hstep as <-. by apply (IH m0).
Qed.

Lemma import_channels_tasks (g : Guild) (channels_data : list ChannelData) :
  ∀ w, ∃ ts,
    tasks (import_channels g channels_data w).2 = (tasks w ++ ts)%list ∧
    ∀ task, task ∈ ts →
      task.1 ∈ guild_channels g ∧
      ∀ role, is_Some (task.2 !! role) → ∃ r, r ∈ guild_roles g ∧ role_id r = role.
Proof.
  induction channels_data as [|cd rest IH]; intros w.
  - exists []. split; [by rewrite app_nil_r|]. by intros task Hin%elem_of_nil.
  - cbn [import_channels].
    destruct (get_channel g (cd_id cd)) as [channel|] eqn:Hget; [|apply IH].
    destruct (import_overwrites g (cd_overwrites cd)) as [bad|new_overwrites] eqn:Himp.
    + exists []. split; [by rewrite app_nil_r|]. by intros task Hin%elem_of_nil.
    + destruct (IH (set_tasks (tasks w ++ [(channel, new_overwrites)]) w))
        as (ts & Hts & Hall).
      exists ((channel, new_overwrites) :: ts). split.
      * rewrite Hts. cbn [tasks set_tasks]. by rewrite <- app_assoc.
      * intros task [->|Hin]%elem_of_cons; [|by apply Hall]. split.
        -- unfold get_channel in Hget. apply List.find_some in Hget as [Hin _].
           by apply list_elem_of_In.
        -- by apply (import_overwrites_roles g (cd_overwrites cd)).
Qed.

(** X15: every write that [import_config] queues is for a channel of the
    guild, and the map it carries has records for roles of the guild only;
    the entries of the file for other channels and other role ids are
    skipped. *)
Theorem import_targets_guild_only (filename : string) (w : World) (g : Guild) :
  guild w = Some g →
  ∃ ts,
    tasks (import_config filename w) = (tasks w ++ ts)%list ∧
    ∀ task, task ∈ ts →
      task.1 ∈ guild_channels g ∧
      ∀ role, is_Some (task.2 !! role) → ∃ r, r ∈ guild_roles g ∧ role_id r = role.
Proof.
  intros Hg. unfold import_config. rewrite Hg.
  destruct (files w !! filename) as [config|].
  - destruct (import_channels_tasks g (cfg_channels config) w) as (ts & Hts & Hall).
    exists ts. split; [|done].
    by destruct (import_channels g (cfg_channels config) w) as [[e|] w1].
  - exists []. split; [by rewrite app_nil_r|]. by intros task Hin%elem_of_nil.
Qed.





(** ** Role keys: [int] on the keys that Python's [int] does not read *)










Lemma run_task_list_frame (ts : list (Channel * gmap Z (gmap string bool))) :
  ∀ w, let w' := run_task_list ts w in
       console w' = console w ∧ last_operation w' = last_operation w ∧
       files w' = files w ∧ guild w' = guild w ∧ tasks w' = tasks w ∧
       requests w' = (requests w + length ts)%nat.
Proof.
  induction ts as [|[channel m] rest IH]; intros w; cbn zeta.
  - cbn. repeat split; lia.
  - cbn [run_task_list length].
    pose proof (channel_edit_same_manager channel m w) as (Hg & Hl & _ & Ht & Hc & Hf & _).
    pose proof (channel_edit_requests channel m w) as Hrq.
    destruct (IH (channel_edit channel m w).2) as (Hc' & Hl' & Hf' & Hg' & Ht' & Hrq').
    cbn [fst snd] in *.
    rewrite Hc', Hl', Hf', Hg', Ht', Hrq', Hc, Hl, Hf, Hg, Ht, Hrq.
    repeat split; lia.
Qed.


(** X18: running the queued writes makes one write request per task and
    empties the queue, and it never prints and never touches the recorded
    operation: a write that the platform rejects goes unreported. *)
Theorem run_tasks_is_silent (w : World) :
  let w' := run_tasks w in
  console w' = console w ∧ last_operation w' = last_operation w ∧
  tasks w' = [] ∧ requests w' = (requests w + length (tasks w))%nat.
Proof.
  cbn zeta. unfold run_tasks.
  destruct (run_task_list_frame (tasks w) (set_tasks [] w)) as (Hc & Hl & _ & _ & Ht & Hrq).
  by rewrite Hc, Hl, Ht, Hrq.
Qed.







(** ** The console front end *)

Lemma dict_of_perms_lookup (perms : list string) (allow : bool) (name : string) :
  dict_of_perms perms allow !! name =
  if decide (name ∈ perms) then Some allow else None.
Proof.
  unfold dict_of_perms.
  assert (Hgen : ∀ acc : gmap string bool,
            foldl (fun d perm => <[perm := allow]> d) acc perms !! name =
            if decide (name ∈ perms) then Some allow else acc !! name).
  { induction perms as [|p rest IH]; intros acc.
    - cbn. case_decide as H; [by apply elem_of_nil in H|done].
    - cbn [foldl]. rewrite IH.
      destruct (decide (name ∈ rest)) as [Hin|Hnin].
      + by rewrite decide_True by (apply elem_of_cons; by right).
      + destruct (decide (name = p)) as [->|Hne].
        * rewrite decide_True by (apply elem_of_cons; by left).
          by rewrite lookup_insert_eq.
        * rewrite decide_False by (by rewrite not_elem_of_cons).
          by rewrite lookup_insert_ne. }
  rewrite Hgen. by case_decide.
Qed.

Lemma select_custom_keys (confirm : nat → bool) (selected_perms : list string)
    (name : string) :
  is_Some ((select_custom confirm selected_perms).1 !! name) → name ∈ permissions.
Proof.
  unfold select_custom.
  induction selected_perms as [|perm rest IH] using rev_ind.
  - cbn. intros [x Hx]. by rewrite lookup_empty in Hx.
  - rewrite foldl_snoc.
    destruct (foldl _ _ rest) as [result asked]. cbn [fst snd] in *.
    case_bool_decide as Hin; [|done]. cbn [fst].
    destruct (decide (replace "-" "_" (replace " " "_" (strip perm)) = name)) as [<-|Hne];
      [done|].
    by rewrite lookup_insert_ne.
Qed.

Lemma perms_at_spec (perms : list string) (indices : list Z) (name : string) :
  name ∈ perms_at perms indices ↔
  ∃ i, i ∈ indices ∧ 0 ≤ i < Z.of_nat (length perms) ∧ perms !! Z.to_nat i = Some name.
Proof.
  unfold perms_at. rewrite list_elem_of_omap. split.
  - intros (i & Hin & Hi). exists i. split; [done|].
    destruct (0 <=? i) eqn:H0; [|done]. destruct (i <? Z.of_nat (length perms)) eqn:H1; [|done].
    cbn in Hi. split; [lia|done].
  - intros (i & Hin & Hrange & Hi). exists i. split; [done|].
    replace (0 <=? i) with true by (symmetry; apply Z.leb_le; lia).
    replace (i <? Z.of_nat (length perms)) with true by (symmetry; apply Z.ltb_lt; lia).
    done.
Qed.

(** X20: whatever the user types, every key of the dictionary that
    [select_permissions_interactive] returns is a catalog name. *)
Theorem selected_permissions_in_catalog (choice_answer names_answer : string)
    (confirm : nat → bool) (name : string) :
  is_Some (select_permissions_interactive choice_answer names_answer confirm !! name) →
  name ∈ permissions.
Proof.
  unfold select_permissions_interactive. cbn zeta.
  destruct (String.eqb (lower choice_answer) "all").
  { rewrite dict_of_perms_lookup. case_decide; [done|]. by intros [x Hx]. }
  destruct (String.eqb (lower choice_answer) "none").
  { intros [x Hx]. by rewrite lookup_empty in Hx. }
  destruct (String.eqb (lower choice_answer) "custom").
  { apply select_custom_keys. }
  destruct (selection_indices (lower choice_answer)) as [indices|].
  - destruct (perms_at permissions indices) as [|p ps] eqn:Hat.
    + intros [x Hx]. by rewrite lookup_empty in Hx.
    + rewrite dict_of_perms_lookup. case_decide as Hin; [|by intros [x Hx]].
      intros _. rewrite <- Hat in Hin. apply perms_at_spec in Hin as (i & _ & _ & Hi).
      by eapply list_elem_of_lookup_2.
  - intros [x Hx]. by rewrite lookup_empty in Hx.
Qed.

(** X21: an answer that is "all" in any mix of cases selects every catalog
    name, all with the one answer to "Allow all permissions?". *)
Theorem select_all_permissions (choice_answer names_answer : string)
    (confirm : nat → bool) (name : string) :
  lower choice_answer = "all" →
  select_permissions_interactive choice_answer names_answer confirm !! name =
  if decide (name ∈ permissions) then Some (confirm 0%nat) else None.
Proof.
  intros Hall. unfold select_permissions_interactive. cbn zeta. rewrite Hall.
  cbn [String.eqb Ascii.eqb Bool.eqb]. apply dict_of_perms_lookup.
Qed.


(** X23: the role that an answer finds is a role of the guild whose id the
    answer reads as, or, only when the answer does not read as a number, a
    listed role with the answer as its name.  So a listed role whose name
    reads as a number that is no role id cannot be chosen by its name. *)
Theorem find_role_by_id_or_name (g : Guild) (roles : list Role) (answer : string) :
  (∀ role, find_role g roles answer = Some role →
     (py_int answer = Some (role_id role) ∧ role ∈ guild_roles g) ∨
     (py_int answer = None ∧ role ∈ roles ∧ role_name role = answer)) ∧
  (∀ id, py_int answer = Some id → get_role g id = None →
         find_role g roles answer = None).
Proof.
  unfold find_role. split.
  - intros role Hfind. destruct (py_int answer) as [id|].
    + left. rewrite (get_role_id g id role Hfind). split; [done|].
      unfold get_role in Hfind. apply List.find_some in Hfind as [Hin _].
      by apply list_elem_of_In.
    + right. unfold get_role_by_name in Hfind.
      apply List.find_some in Hfind as [Hin Hname].
      split; [done|]. split; [by apply list_elem_of_In|by apply String.eqb_eq].
  - by intros id -> ->.
Qed.

Lemma find_channel_sound (g : Guild) (channels : list Channel) (answer : string)
    (channel : Channel) :
  find_channel g channels answer = Some channel →
  channel ∈ guild_channels g ∨ channel ∈ channels.
Proof.
  unfold find_channel. destruct (py_int answer) as [id|]; intros Hfind.
  - left. unfold get_channel in Hfind. apply List.find_some in Hfind as [Hin _].
    by apply list_elem_of_In.
  - right. unfold get_channel_by_name in Hfind.
    apply List.find_some in Hfind as [Hin _]. by apply list_elem_of_In.
Qed.

(** X24: every channel that the comma separated answer selects is a channel
    of the guild or of the list shown, and there are at most as many selected
    channels as pieces in the answer: a piece that names no channel is
    dropped without a message. *)
Theorem select_channels_sound (g : Guild) (channels : list Channel) (answer : string) :
  (∀ channel, channel ∈ select_channels g channels answer →
     channel ∈ guild_channels g ∨ channel ∈ channels) ∧
  (length (select_channels g channels answer) ≤ length (split "," answer))%nat.
Proof.
  unfold select_channels.
  induction (split "," answer) as [|cid rest IH] using rev_ind.
  - split; [by intros channel Hin%elem_of_nil|done].
  - rewrite foldl_snoc, length_app. cbn [length]. destruct IH as [IHin IHlen].
    destruct (find_channel g channels (strip cid)) as [c|] eqn:Hfind.
    + split.
      * intros channel [Hin|Hin%list_elem_of_singleton]%elem_of_app; [by apply IHin|].
        subst. by apply (find_channel_sound g channels (strip cid)).
      * rewrite length_app. cbn [length]. lia.
    + split; [done|lia].
Qed.

(** X25: a row of the audit table has the role's name and ten cells, one for
    each of the first ten catalog names.  Two records that agree on these ten
    names give the same row, whatever they set elsewhere. *)
Theorem audit_row_first_ten (role : Role) (overwrite1 overwrite2 : gmap string bool) :
  length (audit_row role overwrite1) = 11%nat ∧
  ((∀ perm, perm ∈ take 10 permissions → overwrite1 !! perm = overwrite2 !! perm) →
   audit_row role overwrite1 = audit_row role overwrite2).
Proof.
  split; [reflexivity|].
  intros Hagree. unfold audit_row. f_equal.
  apply list_fmap_ext. intros i perm Hi. unfold audit_cell.
  rewrite (Hagree perm); [done|]. by eapply list_elem_of_lookup_2.
Qed.

End Manager.

(** ** Examples on the sample guild *)



(** C9 at work on two requested maps with different keys. *)
Lemma merge_disjoint_union_example :
  dom ({[ "view_channel" := true ]} : gmap string bool) ##
    dom ({[ "send_messages" := false ]} : gmap string bool) ∧
  compute_new_overwrite discord_attrs
    (Some (compute_new_overwrite discord_attrs (Some ∅) {[ "view_channel" := true ]}))
    {[ "send_messages" := false ]} =
  compute_new_overwrite discord_attrs (Some ∅)
    ({[ "view_channel" := true ]} ∪ {[ "send_messages" := false ]}).
Proof.
  assert (Hd : dom ({[ "view_channel" := true ]} : gmap string bool) ##
               dom ({[ "send_messages" := false ]} : gmap string bool)).
  { rewrite !dom_singleton_L. apply disjoint_singleton_l.
    rewrite elem_of_singleton. discriminate. }
  split; [exact Hd|].
  exact (merge_disjoint_union discord_attrs ∅ {[ "view_channel" := true ]}
           {[ "send_messages" := false ]} Hd).
Defined.

(** C2: with an overwrite type that has [send_polls], a name the catalog does
    not list, the merge stores the requested value under that name. *)
Lemma unlisted_flag_is_stored :
  ¬ (∀ name, name ∉ permissions →
       compute_new_overwrite discord_attrs None {[ "send_polls" := true ]} !! name = None).
Proof.
  intros Hdrop. specialize (Hdrop "send_polls").
  assert (Hout : "send_polls" ∉ permissions).
  { apply (bool_decide_unpack _). by vm_compute. }
  specialize (Hdrop Hout). vm_compute in Hdrop. discriminate.
Qed.

(** C2 as amended, on a name that the overwrite type does not have. *)
Lemma merge_drops_names_without_attribute_example :
  is_Some (({[ "fly" := true ]} : gmap string bool) !! "fly") ∧
  discord_attrs "fly" = false ∧
  compute_new_overwrite discord_attrs (Some {[ "send_messages" := false ]})
    {[ "fly" := true ]} = {[ "send_messages" := false ]} ∧
  compute_new_overwrite discord_attrs (Some {[ "send_messages" := false ]})
    {[ "fly" := true ]} !! "fly" = None.
Proof.
  assert (Hreq : is_Some (({[ "fly" := true ]} : gmap string bool) !! "fly"))
    by (by eexists).
  assert (Hattr : discord_attrs "fly" = false) by reflexivity.
  split; [exact Hreq|]. split; [exact Hattr|].
  destruct (merge_drops_names_without_attribute discord_attrs
              (Some {[ "send_messages" := false ]}) {[ "fly" := true ]} "fly" Hreq Hattr)
    as [Hsame Hentry].
  split.
  - rewrite Hsame. by vm_compute.
  - rewrite Hentry. reflexivity.
Defined.

(** C1 at work: a Role→Channels batch over "general" and "staff-room" whose
    second write is rejected, then a rollback. *)
Lemma rollback_restores_example :
  let call := CallRoleToChannels sample_role [general; staff] {[ "view_channel" := true ]} in
  let w := sample_world (rejects_nth 1) sample_store in
  let w1 := (bulk_role_to_channel_permissions discord_attrs sample_role [general; staff]
               {[ "view_channel" := true ]} w).2 in
  let w2 := (rollback_last_operation w1).2 in
  run_batch discord_attrs call w = Some w1 ∧
  records_operation call w = true ∧
  rollback_last_operation w1 = (true, w2) ∧
  channel_overwrites w1 general ≠ channel_overwrites w general ∧
  channel_overwrites w2 general = channel_overwrites w general.
Proof.
  intros call w w1 w2.
  assert (Hrun : run_batch discord_attrs call w = Some w1) by reflexivity.
  assert (Hrec : records_operation call w = true) by reflexivity.
  assert (Hroll : rollback_last_operation w1 = (true, w2)) by (by vm_compute).
  split; [exact Hrun|]. split; [exact Hrec|]. split; [exact Hroll|].
  split.
  - intros Heq. vm_compute in Heq. discriminate.
  - apply (rollback_restores_pre_operation_state discord_attrs call w w1 w2
             Hrun Hrec Hroll general).
    apply elem_of_cons. by left.
Defined.

(** C3, first: two channels called "general"; the write to the first is
    rejected and the write to the second accepted; the result map has the one
    entry "Success" and the failure of the first channel is not in it.
    Second: a batch over three channels in which the platform rejects every
    write to "staff-room", during the batch and during the rollbacks; each
    rollback restores "general", stops at "staff-room" and fails, and
    "announcements", whose write succeeded, is never restored. *)
Lemma partial_failure_counterexample :
  (let channels := [general; general_archive] in
   let w := sample_world (rejects_nth 0) sample_store in
   let out := bulk_role_to_channel_permissions discord_attrs sample_role channels
                {[ "view_channel" := true ]} w in
   ¬ (∀ (i : nat) (channel : Channel),
        channels !! i = Some channel →
        out.1 !! channel_name channel =
        Some (write_status (remote w (requests w + i)%nat)))) ∧
  (let w := sample_world (rejects_at [1; 4; 6]%nat) sample_store in
   let out := bulk_role_to_channel_permissions discord_attrs sample_role
                [general; staff; announcements] {[ "view_channel" := true ]} w in
   let first := rollback_last_operation out.2 in
   let second := rollback_last_operation first.2 in
   out.1 !! "announcements" = Some "Success" ∧
   first.1 = false ∧ second.1 = false ∧
   channel_overwrites second.2 announcements ≠ channel_overwrites w announcements).
Proof.
  split.
  - intros channels w out Hall.
    specialize (Hall 0%nat general eq_refl). vm_compute in Hall. discriminate.
  - intros w out first second.
    split; [by vm_compute|]. split; [by vm_compute|]. split; [by vm_compute|].
    intros Heq. vm_compute in Heq. discriminate.
Qed.

(** C3 as amended, on channels with different names, the second write being
    rejected. *)
Lemma bulk_partial_failure_example :
  let w := sample_world (rejects_nth 1) sample_store in
  let out := bulk_role_to_channel_permissions discord_attrs sample_role [general; staff]
               {[ "view_channel" := true ]} w in
  (∀ name, is_Some (({[ "view_channel" := true ]} : gmap string bool) !! name) →
     name ∈ permissions) ∧
  NoDup (channel_name <$> [general; staff]) ∧
  (∀ n, (requests out.2 ≤ n)%nat → remote w n = None) ∧
  requests out.2 = 2%nat ∧
  out.1 !! "general" = Some "Success" ∧
  out.1 !! "staff-room" = Some "Failed: 403 Forbidden" ∧
  ∃ w2, rollback_last_operation out.2 = (true, w2) ∧
        channel_overwrites w2 general = channel_overwrites w general.
Proof.
  intros w out.
  assert (Hcat : ∀ name,
             is_Some (({[ "view_channel" := true ]} : gmap string bool) !! name) →
             name ∈ permissions).
  { intros name [b Hb]. apply lookup_singleton_Some in Hb as [<- _].
    apply (bool_decide_unpack _). by vm_compute. }
  assert (Hnd : NoDup (channel_name <$> [general; staff])).
  { apply (bool_decide_unpack _). by vm_compute. }
  assert (Hacc : ∀ n, (requests out.2 ≤ n)%nat → remote w n = None).
  { intros n Hn. change (requests out.2) with 2%nat in Hn.
    cbn. unfold rejects_nth. destruct (Nat.eqb_spec n 1); [lia|done]. }
  destruct (bulk_partial_failure discord_attrs sample_role [general; staff]
              {[ "view_channel" := true ]} w Hcat) as (Hrq & _ & Hres & Hroll).
  split; [exact Hcat|]. split; [exact Hnd|]. split; [exact Hacc|].
  split; [exact Hrq|]. split; [exact (Hres Hnd 0%nat general eq_refl)|].
  split; [exact (Hres Hnd 1%nat staff eq_refl)|].
  destruct (Hroll Hacc) as (w2 & Hw2 & Hback).
  exists w2. split; [exact Hw2|]. apply Hback. apply elem_of_cons. by left.
Defined.

(** C4 at work: the rollback of the sample world, which has no operation. *)
Lemma rollback_outcomes_example :
  let w := sample_world accepts_all sample_store in
  last_operation w = None ∧
  rollback_last_operation w =
  (false, console_print "[yellow]No operation to rollback![/yellow]" w).
Proof.
  intros w. split; [reflexivity|].
  exact (proj1 (rollback_outcomes w) eq_refl).
Defined.

(** C6 at work: no role of the sample guild has "admin" in its name. *)
Lemma pattern_match_aborts_example :
  let w := sample_world accepts_all sample_store in
  guild w = Some sample_guild ∧
  (matching_roles_of sample_guild "admin" = [] ∨
   matching_channels_of sample_guild "gen" = []) ∧
  ∃ diagnostic w',
    pattern_match_permissions discord_attrs "admin" "gen" {[ "view_channel" := true ]} w =
    Some (∅, w') ∧
    w' = console_print diagnostic w ∧
    (diagnostic = "[yellow]No roles match pattern: admin[/yellow]" ∨
     diagnostic = "[yellow]No channels match pattern: gen[/yellow]") ∧
    requests w' = requests w ∧ store w' = store w ∧
    last_operation w' = last_operation w ∧ tasks w' = tasks w.
Proof.
  intros w.
  assert (Hg : guild w = Some sample_guild) by reflexivity.
  assert (He : matching_roles_of sample_guild "admin" = [] ∨
               matching_channels_of sample_guild "gen" = []) by (left; reflexivity).
  split; [exact Hg|]. split; [exact He|].
  exact (pattern_match_aborts_on_empty_match discord_attrs "admin" "gen"
           {[ "view_channel" := true ]} w sample_guild Hg He).
Defined.

(** C10 at work: a batch is recorded, then a pattern match that matches no
    role returns; the recorded batch is still there. *)
Lemma aborted_flow_example :
  let w := (bulk_role_to_channel_permissions discord_attrs sample_role [general]
              {[ "view_channel" := true ]}
              (sample_world accepts_all sample_store)).2 in
  let call := CallPatternMatch "admin" "gen" {[ "view_channel" := true ]} in
  let w1 := console_print "[yellow]No roles match pattern: admin[/yellow]" w in
  run_batch discord_attrs call w = Some w1 ∧
  records_operation call w = false ∧
  last_operation w1 = last_operation w ∧
  is_Some (last_operation w1).
Proof.
  intros w call w1.
  assert (Hrun : run_batch discord_attrs call w = Some w1) by reflexivity.
  assert (Hrec : records_operation call w = false) by reflexivity.
  split; [exact Hrun|]. split; [exact Hrec|]. split.
  - exact (proj1 (aborted_flow_keeps_recorded_operation discord_attrs call w w1
                    Hrun Hrec)).
  - by eexists.
Defined.

(** C7 at work: the export of the sample world. *)
Lemma export_example :
  let w := sample_world accepts_all sample_store in
  guild w = Some sample_guild ∧
  ∃ config,
    files (export_config discord_attrs "config.json" w) !! "config.json" = Some config ∧
    cfg_channels config = export_channel discord_attrs w <$> guild_channels sample_guild ∧
    cd_overwrites (export_channel discord_attrs w general) =
    {[ "555" := {[ "send_messages" := Some false ]} ]}.
Proof.
  intros w.
  assert (Hg : guild w = Some sample_guild) by reflexivity.
  split; [exact Hg|].
  destruct (export_writes_only_explicit_flags discord_attrs "config.json" w
              sample_guild Hg) as (config & Hfile & Hchannels & _).
  exists config. split; [exact Hfile|]. split; [exact Hchannels|]. by vm_compute.
Defined.



(** ** Examples for the further properties *)

(** X3 at work: the accepted write to "general". *)
Lemma bulk_write_effect_example :
  let w := sample_world (rejects_nth 1) sample_store in
  let w' := (bulk_role_to_channel_permissions discord_attrs sample_role [general; staff]
               {[ "view_channel" := true ]} w).2 in
  NoDup (channel_id <$> [general; staff]) ∧
  [general; staff] !! 0%nat = Some general ∧
  channel_overwrites w' general !! 555 =
  Some (compute_new_overwrite discord_attrs (channel_overwrites w general !! 555)
          {[ "view_channel" := true ]}).
Proof.
  intros w w'.
  assert (Hnd : NoDup (channel_id <$> [general; staff])).
  { apply (bool_decide_unpack _). by vm_compute. }
  split; [exact Hnd|]. split; [reflexivity|].
  exact (bulk_write_effect discord_attrs sample_role [general; staff]
           {[ "view_channel" := true ]} w 0%nat general Hnd eq_refl 555).
Defined.

(** X4 at work: a batch over "general" leaves "staff-room" alone. *)
Lemma bulk_leaves_other_channels_example :
  let w := sample_world accepts_all sample_store in
  (channel_id staff ∉ channel_id <$> [general]) ∧
  channel_overwrites
    (bulk_role_to_channel_permissions discord_attrs sample_role [general]
       {[ "view_channel" := true ]} w).2 staff = channel_overwrites w staff.
Proof.
  intros w.
  assert (Hout : channel_id staff ∉ channel_id <$> [general]).
  { apply (bool_decide_unpack _). by vm_compute. }
  split; [exact Hout|].
  exact (bulk_leaves_other_channels discord_attrs sample_role [general]
           {[ "view_channel" := true ]} w staff Hout).
Defined.

(** X8 at work: "staff-room" receives the map of "general". *)
Lemma copy_replaces_target_example :
  let w := sample_world accepts_all sample_store in
  remote w (requests w) = None ∧
  channel_overwrites (copy_permissions general staff w).2 staff =
  channel_overwrites w general.
Proof.
  intros w. split; [reflexivity|].
  exact (proj1 (proj2 (copy_replaces_target general staff w eq_refl))).
Defined.

(** X9 at work: the rollback of a batch over "general" leaves "staff-room"
    alone. *)
Lemma rollback_touches_only_recorded_example :
  let w := (bulk_role_to_channel_permissions discord_attrs sample_role [general]
              {[ "view_channel" := true ]}
              (sample_world accepts_all sample_store)).2 in
  let operation :=
    bulk_role_to_channel sample_role [general]
      (capture_originals (sample_world accepts_all sample_store) [general])
      {[ "view_channel" := true ]} in
  last_operation w = Some operation ∧
  (channel_id staff ∉ channel_id <$> restored_channels operation) ∧
  channel_overwrites (rollback_last_operation w).2 staff = channel_overwrites w staff.
Proof.
  intros w operation.
  assert (Hop : last_operation w = Some operation) by reflexivity.
  assert (Hout : channel_id staff ∉ channel_id <$> restored_channels operation).
  { apply (bool_decide_unpack _). by vm_compute. }
  split; [exact Hop|]. split; [exact Hout|].
  exact (rollback_touches_only_recorded_channels operation w staff Hop Hout).
Defined.

(** X11 at work: the platform rejects the third write request, which is the
    first of the first rollback; the second rollback restores "general". *)
Lemma rollback_retry_example :
  let w0 := sample_world (rejects_nth 2) sample_store in
  let w := (bulk_role_to_channel_permissions discord_attrs sample_role [general; staff]
              {[ "view_channel" := true ]} w0).2 in
  let operation :=
    bulk_role_to_channel sample_role [general; staff]
      (capture_originals w0 [general; staff]) {[ "view_channel" := true ]} in
  let w1 := (rollback_last_operation w).2 in
  let w2 := (rollback_last_operation w1).2 in
  last_operation w = Some operation ∧
  rollback_last_operation w = (false, w1) ∧
  rollback_last_operation w1 = (true, w2) ∧
  channel_overwrites w2 general = channel_overwrites w0 general.
Proof.
  intros w0 w operation w1 w2.
  assert (Hop : last_operation w = Some operation) by reflexivity.
  assert (Hfail : rollback_last_operation w = (false, w1)) by (by vm_compute).
  assert (Hretry : rollback_last_operation w1 = (true, w2)) by (by vm_compute).
  split; [exact Hop|]. split; [exact Hfail|]. split; [exact Hretry|].
  apply (rollback_retry_restores operation w w1 w2 Hop Hfail Hretry general).
  - apply elem_of_cons. by left.
  - by vm_compute.
Defined.

(** X12 at work: a live record that sets [send_polls]. *)
Lemma export_omits_unlisted_flags_example :
  ("send_polls" ∉ permissions) ∧
  export_overwrite discord_attrs {[ "send_polls" := true ]} !! "send_polls" = None.
Proof.
  assert (Hout : "send_polls" ∉ permissions).
  { apply (bool_decide_unpack _). by vm_compute. }
  split; [exact Hout|].
  exact (export_omits_unlisted_flags discord_attrs {[ "send_polls" := true ]}
           "send_polls" Hout).
Defined.

(** X13 at work: a record of the file that allows [view_channel]. *)
Lemma import_overwrite_flags_example :
  (∀ name, is_Some (({[ "view_channel" := Some true ]} : gmap string (option bool)) !! name) →
     name ∈ permissions) ∧
  "view_channel" ∈ permissions ∧
  import_overwrite discord_attrs {[ "view_channel" := Some true ]} !! "view_channel" =
  Some true.
Proof.
  assert (Hview : "view_channel" ∈ permissions).
  { apply (bool_decide_unpack _). by vm_compute. }
  assert (Hcat : ∀ name,
             is_Some (({[ "view_channel" := Some true ]} : gmap string (option bool))
                        !! name) →
             name ∈ permissions).
  { intros name [b Hb]. by apply lookup_singleton_Some in Hb as [<- _]. }
  split; [exact Hcat|]. split; [exact Hview|].
  exact (proj2 (proj2 (proj2 (import_overwrite_flags discord_attrs
                                {[ "view_channel" := Some true ]} "view_channel"
                                Hcat Hview))) true eq_refl eq_refl).
Defined.

(** X15 at work: the import of "config.json" queues one write, for
    "general"; the entry for the channel the guild does not have is skipped. *)
Lemma import_targets_guild_only_example :
  let w := sample_world_with_files accepts_all in
  guild w = Some sample_guild ∧
  ∃ ts,
    tasks (import_config discord_attrs "config.json" w) = (tasks w ++ ts)%list ∧
    length ts = 1%nat ∧
    ∀ task, task ∈ ts → task.1 ∈ guild_channels sample_guild.
Proof.
  intros w.
  assert (Hg : guild w = Some sample_guild) by reflexivity.
  split; [exact Hg|].
  destruct (import_targets_guild_only discord_attrs "config.json" w sample_guild Hg)
    as (ts & Hts & Hall).
  exists ts. split; [exact Hts|]. split.
  - assert (Hl : length (tasks (import_config discord_attrs "config.json" w)) = 1%nat)
      by reflexivity.
    rewrite Hts, length_app in Hl. exact Hl.
  - intros task Hin. exact (proj1 (Hall task Hin)).
Defined.







(** X20 at work: the numbers "2, 1,99,0". *)
Lemma selected_permissions_in_catalog_example :
  is_Some (select_permissions_interactive "2, 1,99,0" EmptyString (fun _ => true)
             !! "kick_members") ∧
  "kick_members" ∈ permissions.
Proof.
  assert (Hsel : is_Some (select_permissions_interactive "2, 1,99,0" EmptyString
                            (fun _ => true) !! "kick_members")) by (by eexists).
  split; [exact Hsel|].
  exact (selected_permissions_in_catalog "2, 1,99,0" EmptyString (fun _ => true)
           "kick_members" Hsel).
Defined.

(** X21 at work: the answer "ALL", then "no". *)
Lemma select_all_permissions_example :
  lower "ALL" = "all" ∧
  select_permissions_interactive "ALL" EmptyString (fun _ => false) !! "administrator" =
  Some false.
Proof.
  split; [reflexivity|].
  rewrite (select_all_permissions "ALL" EmptyString (fun _ => false) "administrator"
             eq_refl).
  reflexivity.
Defined.


(** X23 at work: a role called "2024" is listed, no role has the id 2024, and
    the answer "2024" finds no role. *)
Lemma find_role_by_id_or_name_example :
  let year := {| role_id := 777; role_name := "2024" |} in
  let g := {| guild_id := 1; guild_name := "g"; guild_roles := [sample_role; year];
              guild_channels := [] |} in
  py_int "2024" = Some 2024 ∧ get_role g 2024 = None ∧
  find_role g [sample_role; year] "2024" = None.
Proof.
  intros year g. split; [reflexivity|]. split; [reflexivity|].
  exact (proj2 (find_role_by_id_or_name g [sample_role; year] "2024") 2024
           eq_refl eq_refl).
Defined.

(** X25 at work: [send_messages] is the twelfth catalog name; a record that
    denies it gives the row of the empty record. *)
Lemma audit_row_first_ten_example :
  (∀ perm, perm ∈ take 10 permissions →
           ({[ "send_messages" := false ]} : gmap string bool) !! perm =
           (∅ : gmap string bool) !! perm) ∧
  audit_row discord_attrs sample_role {[ "send_messages" := false ]} =
  audit_row discord_attrs sample_role ∅.
Proof.
  assert (Hagree : ∀ perm, perm ∈ take 10 permissions →
             ({[ "send_messages" := false ]} : gmap string bool) !! perm =
             (∅ : gmap string bool) !! perm).
  { intros perm Hin. rewrite lookup_empty. apply lookup_singleton_None.
    intros <-. revert Hin. apply (bool_decide_unpack _). by vm_compute. }
  split; [exact Hagree|].
  exact (proj2 (audit_row_first_ten discord_attrs sample_role
                  {[ "send_messages" := false ]} ∅) Hagree).
Defined.
